(** * The realtime connection manager of trade-machine

    A shallow embedding of [frontend/src/services/websocket.ts]: the
    [WebSocketService] class (three sockets, one shared reconnect policy,
    the inbound message dispatcher, the outbound [sendMessage]) and the
    module-level singleton ([initializeWebSocket], [getWebSocketService],
    [disconnectWebSocket]).

    The browser is the environment.  Its parts that the service touches are
    modelled explicitly: the heap of [WebSocket] objects with their
    [readyState], the queue of pending [setTimeout] callbacks, the promise
    returned by every [connect()] call, and a chronological trace of the
    observable effects (console lines, toasts, callback invocations, frames
    handed to a socket). *)

From Stdlib Require Import ZArith Lia Bool Ascii DecimalString.
From stdpp Require Import base list strings.

Local Set Warnings "-register-all".
Open Scope string_scope.
Open Scope list_scope.
Open Scope Z_scope.

(** ** The host *)

(** What the JavaScript host decides and the source does not: how a Number
    is tested for truth and printed by [Number.prototype.toLocaleString()]
    (locale dependent), the separator [Array.prototype.toLocaleString] puts
    between elements, and which URLs the [WebSocket] constructor accepts
    (it throws a [SyntaxError] on the others). *)
Class Host := {
  num : Type;
  num_truthy : num -> bool;
  num_toLocaleString : num -> string;
  list_separator : string;
  url_accepted : string -> bool
}.

(** An abrupt completion is a thrown exception. *)
Inductive Completion (A : Type) : Type :=
| Normal (a : A)
| Abrupt.
Arguments Normal {A} a.
Arguments Abrupt {A}.

(** Statements in the order the source runs them: [w |> f |> g]. *)
Notation "w |> f" := (f w) (at level 45, left associativity, only parsing).

(** ** Strings *)

Module Str.

Fixpoint drop (n : nat) (s : string) : string :=
  match n, s with
  | O, _ => s
  | S n', String _ r => drop n' r
  | S _, EmptyString => EmptyString
  end.

(** [s.includes(needle)] *)
Fixpoint includes (needle s : string) : bool :=
  String.prefix needle s
  || match s with
     | EmptyString => false
     | String _ r => includes needle r
     end.

(** [s.replace(pat, rep)] for a string pattern: the first occurrence only *)
Fixpoint replace (pat rep s : string) : string :=
  if String.prefix pat s then rep +:+ drop (String.length pat) s
  else match s with
       | EmptyString => EmptyString
       | String c r => String c (replace pat rep r)
       end.

End Str.

Section Service.

Context `{host : Host}.

(** ** JSON values *)

(** The result of [JSON.parse].  An object is the list of its properties;
    a key bound twice stands for its first binding. *)
Inductive json : Type :=
| JNull
| JBool (b : bool)
| JNum (n : num)
| JStr (s : string)
| JArr (items : list json)
| JObj (fields : list (string * json)).

(** A JavaScript value as the dispatcher sees it: [None] is [undefined]. *)
Definition value : Type := option json.

Fixpoint assoc (k : string) (fields : list (string * json)) : value :=
  match fields with
  | [] => None
  | (k', v) :: r => if String.eqb k k' then Some v else assoc k r
  end.

Definition has_key (k : string) (fields : list (string * json)) : bool :=
  existsb (fun kv => String.eqb k (fst kv)) fields.

(** [v.k] for the keys the dispatcher reads ([type], [data], [transaction],
    [transaction_type], [amount], [message], [level], [error]), none of which
    is a property of a built-in prototype: a [TypeError] on [undefined] and
    [null], the own property on an object, [undefined] on anything else. *)
Definition getProp (v : value) (k : string) : Completion value :=
  match v with
  | None | Some JNull => Abrupt
  | Some (JObj fields) => Normal (assoc k fields)
  | Some _ => Normal None
  end.

(** ToBoolean *)
Definition truthy (v : value) : bool :=
  match v with
  | None | Some JNull => false
  | Some (JBool b) => b
  | Some (JNum n) => num_truthy n
  | Some (JStr s) => negb (String.eqb s "")
  | Some (JArr _) | Some (JObj _) => true
  end.

(** [v.includes(needle)] on a value that is neither [undefined] nor [null]:
    [String.prototype.includes] on a string, [Array.prototype.includes] on
    an array, and a [TypeError] (not a function) on the rest. *)
Definition call_includes (v : json) (needle : string) : Completion bool :=
  match v with
  | JStr s => Normal (Str.includes needle s)
  | JArr items =>
      Normal (existsb (fun e => match e with
                                | JStr s => String.eqb s needle
                                | _ => false
                                end) items)
  | _ => Abrupt
  end.

(** [v.toLocaleString()] on a value that is neither [undefined] nor [null].
    A parsed object whose own key shadows [toLocaleString] or [toString]
    holds a JSON value there, which is not callable. *)
Fixpoint call_toLocaleString (v : json) : Completion string :=
  match v with
  | JNull => Abrupt
  | JBool b => Normal (if b then "true" else "false")
  | JNum n => Normal (num_toLocaleString n)
  | JStr s => Normal s
  | JArr items =>
      (fix elems (first : bool) (l : list json) : Completion string :=
         match l with
         | [] => Normal ""
         | e :: r =>
             match match e with
                   | JNull => Normal ""
                   | _ => call_toLocaleString e
                   end, elems false r with
             | Normal s, Normal t =>
                 Normal ((if first then "" else list_separator) +:+ s +:+ t)
             | _, _ => Abrupt
             end
         end) true items
  | JObj fields =>
      if has_key "toLocaleString" fields || has_key "toString" fields
      then Abrupt
      else Normal "[object Object]"
  end.

(** ** Observable effects *)

Inductive Topic : Type := wallet | bots | notifications.

Definition topic_name (t : Topic) : string :=
  match t with
  | wallet => "wallet"
  | bots => "bots"
  | notifications => "notifications"
  end.

Global Instance Topic_eq_dec : EqDecision Topic.
Proof. solve_decision. Defined.

Inductive Level : Type := LLog | LWarn | LError.

(** One constructor per console line of the source. *)
Inductive LogLine : Type :=
| AllConnectionsEstablished
| ErrorConnecting
| SocketConnected (t : Topic)
| SocketDisconnected (t : Topic)
| SocketError (t : Topic)
| MessageFrom (source : Topic) (message : json)
| UnknownMessageType (type : value)
| ErrorParsingMessage
| SchedulingReconnect (delay attempt : Z)
| MaxAttemptsReached
| NotConnected (t : Topic)
| ErrorSending (t : Topic)
| AllConnectionsClosed.

Inductive ToastKind : Type := ToastSuccess | ToastError | ToastPlain.
Inductive Icon : Type := MoneyBag | MoneyWithWings | WarningSign.

Inductive CallbackName : Type :=
| onBalanceUpdate
| onTransactionNotification
| onBotStatusUpdate
| onSystemNotification
| onError
| onConnectionEstablished
| onDisconnect.

(** How the promise returned by an [async] call ends. *)
Inductive Outcome : Type := Fulfilled | Rejected.

Inductive Effect : Type :=
| Console (level : Level) (line : LogLine)
| Toast (kind : ToastKind) (content : json) (duration : option Z)
        (icon : option Icon)
| Invoke (name : CallbackName) (arg : value)
| SetTimeout (instance : nat) (delay : Z)
| Send (socket : nat) (message : json)
| Settled (call : nat) (outcome : Outcome).

(** ** Callbacks *)

(** A registered handler is UI code: it is called with a value and either
    returns or throws.  What the handler does in between is its own; the
    service's trace records that it was called, and with what. *)
Definition Handler : Type := value -> Completion unit.

Record WebSocketCallbacks : Type := {
  cb_onBalanceUpdate : option Handler;
  cb_onTransactionNotification : option Handler;
  cb_onBotStatusUpdate : option Handler;
  cb_onSystemNotification : option Handler;
  cb_onError : option Handler;
  cb_onConnectionEstablished : option Handler;
  cb_onDisconnect : option (Completion unit)
}.

Definition no_callbacks : WebSocketCallbacks :=
  {| cb_onBalanceUpdate := None;
     cb_onTransactionNotification := None;
     cb_onBotStatusUpdate := None;
     cb_onSystemNotification := None;
     cb_onError := None;
     cb_onConnectionEstablished := None;
     cb_onDisconnect := None |}.

(** ** The dispatcher *)

(** The body of a [try] block: the effects performed so far and how the
    block completed. *)
Definition Try (A : Type) : Type := list Effect * Completion A.

Definition ret {A} (a : A) : Try A := ([], Normal a).

Definition bind {A B} (m : Try A) (k : A -> Try B) : Try B :=
  match m with
  | (es, Normal a) => let '(es', r) := k a in (es ++ es', r)
  | (es, Abrupt) => (es, Abrupt)
  end.

Definition lift {A} (c : Completion A) : Try A := ([], c).
Definition perform (e : Effect) : Try unit := ([e], Normal tt).

Notation "'let!' x ':=' m 'in' k" := (bind m (fun x => k))
  (at level 10, x name, m at level 100, k at level 200, only parsing).

(** [handler?.(arg)] *)
Definition invoke (name : CallbackName) (h : option Handler) (arg : value)
  : Try unit :=
  match h with
  | None => ret tt
  | Some f => ([Invoke name arg], f arg)
  end.

(** An inbound frame, by what [JSON.parse] makes of it. *)
Inductive Frame : Type :=
| Malformed
| Parsed (message : json).

Definition JSON_parse (data : Frame) : Try json :=
  match data with
  | Malformed => lift Abrupt
  | Parsed message => ret message
  end.

Definition is_string (v : value) (s : string) : bool :=
  match v with
  | Some (JStr s') => String.eqb s' s
  | _ => false
  end.

(** [tx.transaction_type?.includes('receive')] as a condition *)
Definition isReceive_of (tx : value) : Try bool :=
  let! ty := lift (getProp tx "transaction_type") in
  match ty with
  | None | Some JNull => ret false
  | Some v => lift (call_includes v "receive")
  end.

(** [tx.amount?.toLocaleString() || '0'] *)
Definition amount_of (tx : value) : Try string :=
  let! a := lift (getProp tx "amount") in
  match a with
  | None | Some JNull => ret "0"
  | Some v =>
      let! s := lift (call_toLocaleString v) in
      ret (if String.eqb s "" then "0" else s)
  end.

Definition transaction_toast (cbs : WebSocketCallbacks) (message : json)
  : Try unit :=
  let! data := lift (getProp (Some message) "data") in
  let! _ := invoke onTransactionNotification
              (cb_onTransactionNotification cbs) data in
  let! tx := lift (getProp data "transaction") in
  if truthy tx then
    let! isReceive := isReceive_of tx in
    let! amount := amount_of tx in
    perform (Toast ToastSuccess
               (JStr ((if isReceive then "Received" else "Sent")
                      +:+ " KES " +:+ amount))
               (Some 4000)
               (Some (if isReceive then MoneyBag else MoneyWithWings)))
  else ret tt.

Definition system_toast (cbs : WebSocketCallbacks) (message : json)
  : Try unit :=
  let! data := lift (getProp (Some message) "data") in
  let! _ := invoke onSystemNotification (cb_onSystemNotification cbs) data in
  let! text := lift (getProp data "message") in
  if truthy text then
    let! lv := lift (getProp data "level") in
    let level := if truthy lv then lv else Some (JStr "info") in
    let content := default JNull text in
    if is_string level "error" then
      perform (Toast ToastError content None None)
    else if is_string level "warning" then
      perform (Toast ToastPlain content None (Some WarningSign))
    else
      perform (Toast ToastSuccess content None None)
  else ret tt.

Definition error_toast (cbs : WebSocketCallbacks) (message : json)
  : Try unit :=
  let! data := lift (getProp (Some message) "data") in
  let! _ := invoke onError (cb_onError cbs) data in
  let! err := lift (getProp data "error") in
  if truthy err then perform (Toast ToastError (default JNull err) None None)
  else ret tt.

(** The [try] block of [handleMessage]. *)
Definition handleMessage_try (cbs : WebSocketCallbacks) (data : Frame)
    (source : Topic) : Try unit :=
  let! message := JSON_parse data in
  let! _ := perform (Console LLog (MessageFrom source message)) in
  let! type := lift (getProp (Some message) "type") in
  if is_string type "connection_established" then
    let! data := lift (getProp (Some message) "data") in
    invoke onConnectionEstablished (cb_onConnectionEstablished cbs) data
  else if is_string type "balance_update" then
    let! data := lift (getProp (Some message) "data") in
    invoke onBalanceUpdate (cb_onBalanceUpdate cbs) data
  else if is_string type "transaction_notification" then
    transaction_toast cbs message
  else if is_string type "bot_status_update" then
    let! data := lift (getProp (Some message) "data") in
    invoke onBotStatusUpdate (cb_onBotStatusUpdate cbs) data
  else if is_string type "system_notification" then
    system_toast cbs message
  else if is_string type "error_notification" then
    error_toast cbs message
  else if is_string type "pong" then
    ret tt
  else
    perform (Console LLog (UnknownMessageType type)).

(** [handleMessage(data, source)]: the effects it performs.  Whatever the
    [try] block throws is caught and logged; nothing escapes. *)
Definition handleMessage (cbs : WebSocketCallbacks) (data : Frame)
    (source : Topic) : list Effect :=
  match handleMessage_try cbs data source with
  | (es, Normal _) => es
  | (es, Abrupt) => es ++ [Console LError ErrorParsingMessage]
  end.

(** ** The heap: sockets, service instances, timers *)

Inductive ReadyState : Type := CONNECTING | OPEN | CLOSING | CLOSED.

Global Instance ReadyState_eq_dec : EqDecision ReadyState.
Proof. solve_decision. Defined.

(** A [WebSocket] object.  Its four handlers are closures fixed when it is
    constructed: they belong to the service instance [ws_owner] and to the
    [connectWallet], [connectBots] or [connectNotifications] call named by
    [ws_topic]. *)
Record WebSocket : Type := {
  ws_owner : nat;
  ws_topic : Topic;
  ws_url : string;
  readyState : ReadyState
}.

(** A [connect()] suspended at one of its three [await]s: the call (its
    promise), the stage, and the socket whose promise it waits for. *)
Record Await : Type := {
  aw_call : nat;
  aw_stage : Topic;
  aw_socket : nat
}.

Record WebSocketService : Type := {
  baseUrl : string;
  authToken : string;
  userId : string;
  walletSocket : option nat;
  botsSocket : option nat;
  notificationsSocket : option nat;
  reconnectAttempts : Z;
  maxReconnectAttempts : Z;
  reconnectDelay : Z;
  callbacks : WebSocketCallbacks;
  isConnecting : bool;
  awaiting : option Await
}.

(** [new WebSocketService(baseUrl, authToken, userId)] *)
Definition new_WebSocketService (base token user : string)
  : WebSocketService :=
  {| baseUrl := base; authToken := token; userId := user;
     walletSocket := None; botsSocket := None; notificationsSocket := None;
     reconnectAttempts := 0; maxReconnectAttempts := 5;
     reconnectDelay := 1000;
     callbacks := no_callbacks; isConnecting := false; awaiting := None |}.

Definition set_socket (t : Topic) (s : option nat) (sv : WebSocketService)
  : WebSocketService :=
  {| baseUrl := baseUrl sv; authToken := authToken sv; userId := userId sv;
     walletSocket := match t with wallet => s | _ => walletSocket sv end;
     botsSocket := match t with bots => s | _ => botsSocket sv end;
     notificationsSocket :=
       match t with notifications => s | _ => notificationsSocket sv end;
     reconnectAttempts := reconnectAttempts sv;
     maxReconnectAttempts := maxReconnectAttempts sv;
     reconnectDelay := reconnectDelay sv;
     callbacks := callbacks sv; isConnecting := isConnecting sv;
     awaiting := awaiting sv |}.

Definition set_reconnectAttempts (n : Z) (sv : WebSocketService)
  : WebSocketService :=
  {| baseUrl := baseUrl sv; authToken := authToken sv; userId := userId sv;
     walletSocket := walletSocket sv; botsSocket := botsSocket sv;
     notificationsSocket := notificationsSocket sv;
     reconnectAttempts := n;
     maxReconnectAttempts := maxReconnectAttempts sv;
     reconnectDelay := reconnectDelay sv;
     callbacks := callbacks sv; isConnecting := isConnecting sv;
     awaiting := awaiting sv |}.

Definition set_callbacks (cbs : WebSocketCallbacks) (sv : WebSocketService)
  : WebSocketService :=
  {| baseUrl := baseUrl sv; authToken := authToken sv; userId := userId sv;
     walletSocket := walletSocket sv; botsSocket := botsSocket sv;
     notificationsSocket := notificationsSocket sv;
     reconnectAttempts := reconnectAttempts sv;
     maxReconnectAttempts := maxReconnectAttempts sv;
     reconnectDelay := reconnectDelay sv;
     callbacks := cbs; isConnecting := isConnecting sv;
     awaiting := awaiting sv |}.

Definition set_isConnecting (b : bool) (sv : WebSocketService)
  : WebSocketService :=
  {| baseUrl := baseUrl sv; authToken := authToken sv; userId := userId sv;
     walletSocket := walletSocket sv; botsSocket := botsSocket sv;
     notificationsSocket := notificationsSocket sv;
     reconnectAttempts := reconnectAttempts sv;
     maxReconnectAttempts := maxReconnectAttempts sv;
     reconnectDelay := reconnectDelay sv;
     callbacks := callbacks sv; isConnecting := b;
     awaiting := awaiting sv |}.

Definition set_awaiting (a : option Await) (sv : WebSocketService)
  : WebSocketService :=
  {| baseUrl := baseUrl sv; authToken := authToken sv; userId := userId sv;
     walletSocket := walletSocket sv; botsSocket := botsSocket sv;
     notificationsSocket := notificationsSocket sv;
     reconnectAttempts := reconnectAttempts sv;
     maxReconnectAttempts := maxReconnectAttempts sv;
     reconnectDelay := reconnectDelay sv;
     callbacks := callbacks sv; isConnecting := isConnecting sv;
     awaiting := a |}.

Definition socket_of (t : Topic) (sv : WebSocketService) : option nat :=
  match t with
  | wallet => walletSocket sv
  | bots => botsSocket sv
  | notifications => notificationsSocket sv
  end.

(** The state of the page: the service objects and sockets ever created
    (an object's index is its identity), the [setTimeout] callbacks not yet
    run (each will call [connect()] on the instance it names), the
    module-level variable [websocketService], the number of [connect()]
    calls made so far (a call's number names its promise), and the trace. *)
Record World : Type := {
  instances : list WebSocketService;
  sockets : list WebSocket;
  timers : list (nat * Z);
  websocketService : option nat;
  calls : nat;
  out : list Effect
}.

Definition initial : World :=
  {| instances := []; sockets := []; timers := [];
     websocketService := None; calls := 0%nat; out := [] |}.

Definition emit (e : Effect) (w : World) : World :=
  {| instances := instances w; sockets := sockets w; timers := timers w;
     websocketService := websocketService w; calls := calls w;
     out := out w ++ [e] |}.

Definition emit_all (es : list Effect) (w : World) : World :=
  {| instances := instances w; sockets := sockets w; timers := timers w;
     websocketService := websocketService w; calls := calls w;
     out := out w ++ es |}.

Definition set_instances (l : list WebSocketService) (w : World) : World :=
  {| instances := l; sockets := sockets w; timers := timers w;
     websocketService := websocketService w; calls := calls w;
     out := out w |}.

Definition set_sockets (l : list WebSocket) (w : World) : World :=
  {| instances := instances w; sockets := l; timers := timers w;
     websocketService := websocketService w; calls := calls w;
     out := out w |}.

Definition set_timers (l : list (nat * Z)) (w : World) : World :=
  {| instances := instances w; sockets := sockets w; timers := l;
     websocketService := websocketService w; calls := calls w;
     out := out w |}.

Definition set_websocketService (o : option nat) (w : World) : World :=
  {| instances := instances w; sockets := sockets w; timers := timers w;
     websocketService := o; calls := calls w; out := out w |}.

Definition set_calls (n : nat) (w : World) : World :=
  {| instances := instances w; sockets := sockets w; timers := timers w;
     websocketService := websocketService w; calls := n; out := out w |}.

(** A field assignment [this.f = v] *)
Definition update (this : nat) (f : WebSocketService -> WebSocketService)
    (w : World) : World :=
  set_instances (alter f this (instances w)) w.

(** [setTimeout(() => { this.connect() }, delay)] *)
Definition setTimeout (this : nat) (delay : Z) (w : World) : World :=
  emit (SetTimeout this delay) (set_timers (timers w ++ [(this, delay)]) w).

Definition set_readyState (r : ReadyState) (sk : WebSocket) : WebSocket :=
  {| ws_owner := ws_owner sk; ws_topic := ws_topic sk; ws_url := ws_url sk;
     readyState := r |}.

Definition ready (w : World) (s : nat) : option ReadyState :=
  readyState <$> sockets w !! s.

(** ** The reconnect policy *)

Definition connection_lost : Effect :=
  Toast ToastError (JStr "Connection lost. Please refresh the page.")
        None None.

Definition scheduleReconnect (this : nat) (w : World) : World :=
  match instances w !! this with
  | None => w
  | Some sv =>
      if reconnectAttempts sv <? maxReconnectAttempts sv then
        let attempt := reconnectAttempts sv + 1 in
        let delay := reconnectDelay sv * 2 ^ (attempt - 1) in
        w |> update this (set_reconnectAttempts attempt)
          |> emit (Console LLog (SchedulingReconnect delay attempt))
          |> setTimeout this delay
      else
        w |> emit (Console LError MaxAttemptsReached)
          |> emit connection_lost
  end.

(** ** Opening the three sockets *)

(** The URL of a topic's socket, as the template strings build it. *)
Definition wsUrl (sv : WebSocketService) (t : Topic) : string :=
  Str.replace "http" "ws" (baseUrl sv) +:+ "/ws/" +:+ topic_name t +:+ "/"
  +:+ userId sv +:+ "?token=" +:+ authToken sv.

(** The promise returned by call number [call] of [connect()] settles. *)
Definition settle (call : nat) (o : Outcome) (w : World) : World :=
  emit (Settled call o) w.

(** The [catch] block of [connect()], reached when the awaited promise is
    rejected; the function then returns, which fulfils its own promise. *)
Definition connect_catch (this call : nat) (w : World) : World :=
  w |> update this (set_awaiting None)
    |> emit (Console LError ErrorConnecting)
    |> update this (set_isConnecting false)
    |> scheduleReconnect this
    |> settle call Fulfilled.

(** [await this.connectWallet()] and its two siblings, up to the point where
    [connect()] is suspended: the socket is constructed in state
    [CONNECTING], stored in the field of its topic, and its handlers are
    attached.  When the constructor throws, the promise is rejected at once
    and control reaches the [catch] block. *)
Definition connectChannel (t : Topic) (this call : nat) (w : World) : World :=
  match instances w !! this with
  | None => w
  | Some sv =>
      let url := wsUrl sv t in
      if url_accepted url then
        let s := length (sockets w) in
        w |> set_sockets (sockets w ++ [{| ws_owner := this; ws_topic := t;
                                           ws_url := url;
                                           readyState := CONNECTING |}])
          |> update this (set_socket t (Some s))
          |> update this (set_awaiting (Some {| aw_call := call;
                                                aw_stage := t;
                                                aw_socket := s |}))
      else connect_catch this call w
  end.

Definition connectWallet : nat -> nat -> World -> World :=
  connectChannel wallet.
Definition connectBots : nat -> nat -> World -> World :=
  connectChannel bots.
Definition connectNotifications : nat -> nat -> World -> World :=
  connectChannel notifications.

(** [connect()] from its first statement to its first suspension. *)
Definition connect (this : nat) (w : World) : World :=
  match instances w !! this with
  | None => w
  | Some sv =>
      let call := calls w in
      let w := set_calls (S call) w in
      if isConnecting sv then settle call Fulfilled w
      else w |> update this (set_isConnecting true)
             |> connectWallet this call
  end.

(** [connect()] resumed after the [await] of stage [stage] was fulfilled. *)
Definition connect_resume (this call : nat) (stage : Topic) (w : World)
  : World :=
  match stage with
  | wallet => connectBots this call w
  | bots => connectNotifications this call w
  | notifications =>
      w |> update this (set_reconnectAttempts 0)
        |> update this (set_isConnecting false)
        |> emit (Console LLog AllConnectionsEstablished)
        |> settle call Fulfilled
  end.

(** The [connect()] of [this] that is suspended on the promise of socket
    [s], if there is one.  A promise settles once: later calls of its
    [resolve] or [reject] find nobody waiting. *)
Definition waiting_on (this s : nat) (w : World) : option Await :=
  match instances w !! this with
  | Some sv =>
      match awaiting sv with
      | Some a => if Nat.eqb (aw_socket a) s then Some a else None
      | None => None
      end
  | None => None
  end.

(** The [resolve] closure of the promise made for socket [s] *)
Definition resolve (this s : nat) (w : World) : World :=
  match waiting_on this s w with
  | Some a =>
      w |> update this (set_awaiting None)
        |> connect_resume this (aw_call a) (aw_stage a)
  | None => w
  end.

(** The [reject] closure of the promise made for socket [s] *)
Definition reject (this s : nat) (w : World) : World :=
  match waiting_on this s w with
  | Some a => connect_catch this (aw_call a) w
  | None => w
  end.

(** ** The handlers attached to a socket *)

Definition onopen (s : nat) (w : World) : World :=
  match sockets w !! s with
  | None => w
  | Some sk =>
      w |> emit (Console LLog (SocketConnected (ws_topic sk)))
        |> resolve (ws_owner sk) s
  end.

Definition onmessage (s : nat) (data : Frame) (w : World) : World :=
  match sockets w !! s with
  | None => w
  | Some sk =>
      match instances w !! ws_owner sk with
      | None => w
      | Some sv => emit_all (handleMessage (callbacks sv) data (ws_topic sk)) w
      end
  end.

(** [this.callbacks.onDisconnect?.()]; an exception thrown by the callback
    ends the handler that called it. *)
Definition call_onDisconnect (this : nat) (k : World -> World) (w : World)
  : World :=
  match instances w !! this with
  | None => w
  | Some sv =>
      match cb_onDisconnect (callbacks sv) with
      | None => k w
      | Some (Normal _) => k (emit (Invoke onDisconnect None) w)
      | Some Abrupt => emit (Invoke onDisconnect None) w
      end
  end.

Definition onclose (s : nat) (w : World) : World :=
  match sockets w !! s with
  | None => w
  | Some sk =>
      let this := ws_owner sk in
      let w := emit (Console LLog (SocketDisconnected (ws_topic sk))) w in
      match ws_topic sk with
      | wallet => call_onDisconnect this (scheduleReconnect this) w
      | bots => scheduleReconnect this w
      | notifications => scheduleReconnect this w
      end
  end.

Definition onerror (s : nat) (w : World) : World :=
  match sockets w !! s with
  | None => w
  | Some sk =>
      w |> emit (Console LError (SocketError (ws_topic sk)))
        |> reject (ws_owner sk) s
  end.

(** ** Sending *)

(** The argument of [sendMessage] is [any]: [JSON.stringify] turns it into
    a frame or throws (a cyclic object, a BigInt). *)
Inductive Payload : Type :=
| Serializable (message : json)
| Unserializable.

Definition is_open (w : World) (s : nat) : bool :=
  match ready w s with
  | Some OPEN => true
  | _ => false
  end.

Definition sendMessage (this : nat) (message : Payload) (socketType : Topic)
    (w : World) : World :=
  match instances w !! this with
  | None => w
  | Some sv =>
      match socket_of socketType sv with
      | Some s =>
          if is_open w s then
            match message with
            | Serializable m => emit (Send s m) w
            | Unserializable =>
                emit (Console LError (ErrorSending socketType)) w
            end
          else emit (Console LWarn (NotConnected socketType)) w
      | None => emit (Console LWarn (NotConnected socketType)) w
      end
  end.

Definition ping (this : nat) (socketType : Topic) : World -> World :=
  sendMessage this (Serializable (JObj [("type", JStr "ping")])) socketType.

Definition subscribeToTransactions (this : nat) : World -> World :=
  sendMessage this
    (Serializable (JObj [("type", JStr "subscribe_transactions")])) wallet.

Definition getWalletStatus (this : nat) : World -> World :=
  sendMessage this
    (Serializable (JObj [("type", JStr "get_wallet_status")])) wallet.

Definition subscribeToBotUpdates (this : nat) (botId : string)
  : World -> World :=
  sendMessage this
    (Serializable (JObj [("type", JStr "subscribe_bot_updates");
                         ("bot_id", JStr botId)])) bots.

(** ** Closing *)

(** [socket.close()]: a socket that is connecting or open starts closing;
    its [close] event comes later, from the transport. *)
Definition close (s : nat) (w : World) : World :=
  set_sockets
    (alter (fun sk => match readyState sk with
                      | CONNECTING | OPEN => set_readyState CLOSING sk
                      | CLOSING | CLOSED => sk
                      end) s (sockets w)) w.

(** One of the three [if (this.xSocket) { ... }] blocks of [disconnect] *)
Definition release (t : Topic) (this : nat) (w : World) : World :=
  match instances w !! this with
  | None => w
  | Some sv =>
      match socket_of t sv with
      | Some s => w |> close s |> update this (set_socket t None)
      | None => w
      end
  end.

Definition disconnect (this : nat) (w : World) : World :=
  w |> release wallet this
    |> release bots this
    |> release notifications this
    |> emit (Console LLog AllConnectionsClosed).

Definition isConnected (this : nat) (w : World) : bool :=
  match instances w !! this with
  | None => false
  | Some sv =>
      existsb (fun t => match socket_of t sv with
                        | Some s => is_open w s
                        | None => false
                        end) [wallet; bots; notifications]
  end.

(** ** The singleton *)

Definition setCallbacks (this : nat) (cbs : WebSocketCallbacks) (w : World)
  : World :=
  update this (set_callbacks cbs) w.

(** [initializeWebSocket]; the handle it returns is the index of the new
    instance, [length (instances w)]. *)
Definition initializeWebSocket (base token user : string)
    (cbs : WebSocketCallbacks) (w : World) : World :=
  let w := match websocketService w with
           | Some old => disconnect old w
           | None => w
           end in
  let this := length (instances w) in
  w |> set_instances (instances w ++ [new_WebSocketService base token user])
    |> set_websocketService (Some this)
    |> setCallbacks this cbs.

Definition getWebSocketService (w : World) : option nat :=
  websocketService w.

Definition disconnectWebSocket (w : World) : World :=
  match websocketService w with
  | Some this => w |> disconnect this |> set_websocketService None
  | None => w
  end.

(** ** The event loop *)

(** What can happen next: the page calls into the module, the transport
    reports on a socket, or a timer runs out. *)
Inductive Event : Type :=
| Initialize (base token user : string) (cbs : WebSocketCallbacks)
| Teardown
| SetCallbacks (this : nat) (cbs : WebSocketCallbacks)
| Connect (this : nat)
| Disconnect (this : nat)
| SendMessage (this : nat) (message : Payload) (socketType : Topic)
| SocketOpened (s : nat)
| SocketFailed (s : nat)
| SocketClosed (s : nat)
| FrameReceived (s : nat) (data : Frame)
| TimerFired (k : nat).

(** One turn of the event loop.  The transport keeps to the WebSocket
    protocol: [open] comes only to a connecting socket and makes it open,
    [message] only to an open one, [close] once and makes it closed, and
    nothing comes to a closed socket; events that break this do not occur
    and leave the world as it is.  A timer that runs out leaves the queue
    and calls [connect()] on its instance. *)
Definition step (w : World) (e : Event) : World :=
  match e with
  | Initialize base token user cbs => initializeWebSocket base token user cbs w
  | Teardown => disconnectWebSocket w
  | SetCallbacks this cbs => setCallbacks this cbs w
  | Connect this => connect this w
  | Disconnect this => disconnect this w
  | SendMessage this message socketType =>
      sendMessage this message socketType w
  | SocketOpened s =>
      match ready w s with
      | Some CONNECTING =>
          w |> set_sockets (alter (set_readyState OPEN) s (sockets w))
            |> onopen s
      | _ => w
      end
  | SocketFailed s =>
      match ready w s with
      | Some CONNECTING | Some OPEN | Some CLOSING => onerror s w
      | _ => w
      end
  | SocketClosed s =>
      match ready w s with
      | Some CONNECTING | Some OPEN | Some CLOSING =>
          w |> set_sockets (alter (set_readyState CLOSED) s (sockets w))
            |> onclose s
      | _ => w
      end
  | FrameReceived s data =>
      match ready w s with
      | Some OPEN => onmessage s data w
      | _ => w
      end
  | TimerFired k =>
      match timers w !! k with
      | Some (this, _) => w |> set_timers (delete k (timers w)) |> connect this
      | None => w
      end
  end.

Definition run (es : list Event) (w : World) : World :=
  fold_left step es w.

(** ** Reading a trace *)

(** The [type] values the [switch] of [handleMessage] has a case for. *)
Definition recognized_types : list string :=
  ["connection_established"; "balance_update"; "transaction_notification";
   "bot_status_update"; "system_notification"; "error_notification"; "pong"].

Definition recognized (type : value) : bool :=
  existsb (is_string type) recognized_types.

(** The discriminant of a frame, when it has one: a malformed frame and the
    frame [null] have none. *)
Definition frame_type (data : Frame) : option value :=
  match data with
  | Malformed => None
  | Parsed message =>
      match getProp (Some message) "type" with
      | Normal type => Some type
      | Abrupt => None
      end
  end.

Definition is_console (e : Effect) : bool :=
  match e with Console _ _ => true | _ => false end.

Definition is_toast (e : Effect) : bool :=
  match e with Toast _ _ _ _ => true | _ => false end.

Definition is_connection_lost (e : Effect) : bool :=
  match e with
  | Toast ToastError (JStr text) None None =>
      String.eqb text "Connection lost. Please refresh the page."
  | _ => false
  end.

Definition is_onDisconnect (e : Effect) : bool :=
  match e with Invoke onDisconnect _ => true | _ => false end.

Fixpoint count (p : Effect -> bool) (es : list Effect) : nat :=
  match es with
  | [] => O
  | e :: r => if p e then S (count p r) else count p r
  end.

Definition toasts (es : list Effect) : list Effect := List.filter is_toast es.

(** The promises settled in a trace, in order. *)
Fixpoint settlements (es : list Effect) : list (nat * Outcome) :=
  match es with
  | [] => []
  | Settled call o :: r => (call, o) :: settlements r
  | _ :: r => settlements r
  end.

(** Whether [handler?.(arg)] returns. *)
Definition returns (h : option Handler) (arg : value) : bool :=
  match h with
  | None => true
  | Some f => match f arg with Normal _ => true | Abrupt => false end
  end.

(** ** What a turn of the event loop may add to the trace *)

(** Whether the event is the [close] of a socket opened by [connectWallet]. *)
Definition is_wallet_close (w : World) (e : Event) : bool :=
  match e with
  | SocketClosed s =>
      match sockets w !! s with
      | Some sk => bool_decide (ws_topic sk = wallet)
      | None => false
      end
  | _ => false
  end.

(** An effect the service can produce: a promise is only ever fulfilled,
    and [onDisconnect] is only called (without arguments) where
    [wallet_close] allows it. *)
Definition allowed (wallet_close : bool) (x : Effect) : Prop :=
  match x with
  | Settled _ o => o = Fulfilled
  | Invoke name arg =>
      name = onDisconnect -> wallet_close = true /\ arg = None
  | _ => True
  end.

(** [w] continues the trace of [w0] with allowed effects only. *)
Definition extends (wallet_close : bool) (w0 w : World) : Prop :=
  exists es, out w = out w0 ++ es /\ Forall (allowed wallet_close) es.

(** ** Invariants *)

(** The two constants of the policy keep their initial values in every
    instance, and the counter stays between zero and the cap. *)
Definition policy_ok (sv : WebSocketService) : Prop :=
  maxReconnectAttempts sv = 5 /\ reconnectDelay sv = 1000
  /\ 0 <= reconnectAttempts sv <= 5.

Definition bounded (w : World) : Prop := Forall policy_ok (instances w).

(** The delays of the spec: [d, 2d, 4d, 8d, 16d]. *)
Definition backoff (d : Z) : list Z := [d; 2 * d; 4 * d; 8 * d; 16 * d].

(** The stage at which [connect()] waits after the one named. *)
Definition next_stage (stage : Topic) : option Topic :=
  match stage with
  | wallet => Some bots
  | bots => Some notifications
  | notifications => None
  end.

(** What the dispatcher does: console lines, toasts, and calls of
    callbacks other than [onDisconnect]. *)
Definition ui_effect (e : Effect) : Prop :=
  match e with
  | Console _ _ | Toast _ _ _ _ => True
  | Invoke name _ => name <> onDisconnect
  | _ => False
  end.

Definition clean {A} (m : Try A) : Prop := Forall ui_effect m.1.

(** The calls of [connect()] whose future has settled, in order. *)
Definition settled (w : World) : list nat := (settlements (out w)).*1.

(** The [connect()] suspended in instance [i], if any. *)
Definition awaited (w : World) (i : nat) : option Await :=
  instances w !! i ≫= awaiting.

(** Every future that has settled or is awaited was created; no future
    has settled twice; an awaited one has not settled; and no two
    instances wait for the same one. *)
Definition promises_ok (w : World) : Prop :=
  (forall c, c ∈ settled w -> (c < calls w)%nat)
  /\ NoDup (settled w)
  /\ (forall i a, awaited w i = Some a ->
                  (aw_call a < calls w)%nat /\ aw_call a ∉ settled w)
  /\ (forall i j a a', awaited w i = Some a -> awaited w j = Some a' ->
                       aw_call a = aw_call a' -> i = j).

(** Call [c] is free for instance [this] to settle or to wait for: it was
    created, has not settled, and no other instance waits for it. *)
Definition free (c this : nat) (w : World) : Prop :=
  promises_ok w /\ (c < calls w)%nat /\ (c ∉ settled w)
  /\ (forall j a, awaited w j = Some a -> aw_call a = c -> j = this).

(** Call [c] is in hand: free, and no instance at all waits for it. *)
Definition inhand (c : nat) (w : World) : Prop :=
  promises_ok w /\ (c < calls w)%nat /\ (c ∉ settled w)
  /\ (forall j a, awaited w j = Some a -> aw_call a <> c).

(** Two worlds with the same futures. *)
Definition same_promises (w w' : World) : Prop :=
  (forall i, awaited w' i = awaited w i)
  /\ settled w' = settled w /\ calls w' = calls w.

(** From [w] to [w'] every instance is still there with its cap, and its
    counter stands where it stood or, when [may_step] allows it, one
    higher, having been below the cap. *)
Definition counter_moves (may_step : bool) (w w' : World) : Prop :=
  forall i sv,
    instances w !! i = Some sv ->
    exists sv',
      instances w' !! i = Some sv'
      /\ maxReconnectAttempts sv' = maxReconnectAttempts sv
      /\ (reconnectAttempts sv' = reconnectAttempts sv
          \/ (may_step = true
              /\ reconnectAttempts sv' = reconnectAttempts sv + 1
              /\ reconnectAttempts sv < maxReconnectAttempts sv)).

End Service.

(** ** A host for the examples *)

(** Integers as numbers, printed the way the [en-US] locale prints them
    (digits grouped by three with commas), and a [WebSocket] constructor
    that takes [ws:] and [wss:] URLs without a fragment. *)
Module EnUS.

(** Walking the digits from the right, a comma after every third one
    that still has a digit to its left; [k] digits remain in the group. *)
Fixpoint commas (k : nat) (reversed : list ascii) : list ascii :=
  match reversed with
  | [] => []
  | [d] => [d]
  | d :: r =>
      match k with
      | O => d :: ","%char :: commas 2 r
      | S k' => d :: commas k' r
      end
  end.

Definition grouped (digits : list ascii) : list ascii :=
  rev (commas 2 (rev digits)).

Definition digits_of (n : Z) : list ascii :=
  String.list_ascii_of_string
    (NilZero.string_of_uint (N.to_uint (Z.to_N (Z.abs n)))).

Definition toLocaleString (n : Z) : string :=
  (if n <? 0 then "-" else "")
  +:+ String.string_of_list_ascii (grouped (digits_of n)).

Definition accepts (url : string) : bool :=
  (String.prefix "ws://" url || String.prefix "wss://" url)
  && negb (Str.includes "#" url).

Definition host : Host :=
  {| num := Z;
     num_truthy := fun n => negb (n =? 0);
     num_toLocaleString := toLocaleString;
     list_separator := ",";
     url_accepted := accepts |}.

End EnUS.

(** ** Scenarios *)

(** Concrete worlds, on the host above, for the worked examples. *)
Module Scenario.

#[local] Existing Instance EnUS.host.

Definition returning : Handler := fun _ => Normal tt.

Definition all_callbacks : WebSocketCallbacks :=
  {| cb_onBalanceUpdate := Some returning;
     cb_onTransactionNotification := Some returning;
     cb_onBotStatusUpdate := Some returning;
     cb_onSystemNotification := Some returning;
     cb_onError := Some returning;
     cb_onConnectionEstablished := Some returning;
     cb_onDisconnect := Some (Normal tt) |}.

Definition start : Event :=
  Initialize "http://localhost:8000" "token" "42" all_callbacks.

(** The page has called [initializeWebSocket]. *)
Definition fresh : World := run [start] initial.

(** The server is down: every socket fails and closes, every timer fires. *)
Definition server_down : list Event :=
  [start; Connect 0;
   SocketFailed 0; SocketClosed 0; TimerFired 0;
   SocketFailed 1; SocketClosed 1; TimerFired 0;
   SocketFailed 2].

(** The three sockets of the first [connect()] have opened. *)
Definition connected : World :=
  run [start; Connect 0; SocketOpened 0; SocketOpened 1; SocketOpened 2]
      initial.

(** The page initializes again; the sockets of the first instance, closed
    by its [disconnect()], report their close; the timer of the first
    instance fires, and its new sockets open. *)
Definition reinitialized : World :=
  run [start; SocketClosed 0; SocketClosed 1; SocketClosed 2;
       TimerFired 0; SocketOpened 3; SocketOpened 4; SocketOpened 5]
      connected.

(** The bots socket of the first instance closes, the instance connects
    again (its new sockets open), and then the page initializes again. *)
Definition replaced_after_reconnect : World :=
  run [SocketClosed 1; TimerFired 0; SocketOpened 3; SocketOpened 4;
       SocketOpened 5; start] connected.

Definition unknown_envelope : json :=
  JObj [("type", JStr "price_tick"); ("data", JObj [("price", JNum 7)])].

Definition receipt : json :=
  JObj [("type", JStr "transaction_notification");
        ("data",
         JObj [("transaction",
                JObj [("transaction_type", JStr "mpesa_receive");
                      ("amount", JNum 1500)])])].

(** The instance and the socket at an index of the heap, for worlds where
    there is one. *)
Definition service_at (w : World) (this : nat) : WebSocketService :=
  default (new_WebSocketService "" "" "") (instances w !! this).

Definition socket_at (w : World) (s : nat) : WebSocket :=
  default {| ws_owner := 0; ws_topic := wallet; ws_url := "";
             readyState := CLOSED |} (sockets w !! s).

Definition fresh_service : WebSocketService :=
  set_callbacks all_callbacks
    (new_WebSocketService "http://localhost:8000" "token" "42").

(** The wallet socket has closed. *)
Definition wallet_down : World := run [SocketClosed 0] connected.

(** The first [connect()] has failed, and its reconnect is pending. *)
Definition retrying : World := run [start; Connect 0; SocketFailed 0] initial.

(** The reconnect has run: the wallet and the bots socket of the second
    [connect()] have opened, and it waits for the notifications socket. *)
Definition almost_back : World :=
  run [TimerFired 0; SocketOpened 1; SocketOpened 2] retrying.

(** A receipt whose amount is a string, as a decimal is often sent. *)
Definition quoted_receipt : json :=
  JObj [("type", JStr "transaction_notification");
        ("data",
         JObj [("transaction",
                JObj [("transaction_type", JStr "mpesa_receive");
                      ("amount", JStr "1500000.00")])])].

(** A receipt of a million and a half, as a number. *)
Definition large_receipt : json :=
  JObj [("type", JStr "transaction_notification");
        ("data",
         JObj [("transaction",
                JObj [("transaction_type", JStr "mpesa_receive");
                      ("amount", JNum 1500000)])])].

(** A transaction that names neither a category nor an amount. *)
Definition bare_receipt : json :=
  JObj [("type", JStr "transaction_notification");
        ("data", JObj [("transaction", JObj [("id", JNum 7)])])].

(** A transaction whose category is a number. *)
Definition numbered_receipt : json :=
  JObj [("type", JStr "transaction_notification");
        ("data",
         JObj [("transaction",
                JObj [("transaction_type", JNum 3);
                      ("amount", JNum 10)])])].

End Scenario.

(** * Properties *)

Section Properties.

Context `{host : Host}.

Implicit Types (w : World) (sv : WebSocketService) (this s call : nat).

#[local] Arguments getProp : simpl never.
#[local] Arguments truthy : simpl never.

(** ** The reconnect policy *)

Lemma scheduleReconnect_below this w sv :
  instances w !! this = Some sv ->
  reconnectAttempts sv < maxReconnectAttempts sv ->
  scheduleReconnect this w =
    w |> update this (set_reconnectAttempts (reconnectAttempts sv + 1))
      |> emit (Console LLog
                 (SchedulingReconnect
                    (reconnectDelay sv * 2 ^ (reconnectAttempts sv + 1 - 1))
                    (reconnectAttempts sv + 1)))
      |> setTimeout this
           (reconnectDelay sv * 2 ^ (reconnectAttempts sv + 1 - 1)).
Proof.
  intros Hsv Hlt. unfold scheduleReconnect. rewrite Hsv.
  destruct (Z.ltb_spec (reconnectAttempts sv) (maxReconnectAttempts sv));
    [reflexivity | lia].
Qed.

Lemma scheduleReconnect_at_cap this w sv :
  instances w !! this = Some sv ->
  maxReconnectAttempts sv <= reconnectAttempts sv ->
  scheduleReconnect this w =
    w |> emit (Console LError MaxAttemptsReached) |> emit connection_lost.
Proof.
  intros Hsv Hge. unfold scheduleReconnect. rewrite Hsv.
  destruct (Z.ltb_spec (reconnectAttempts sv) (maxReconnectAttempts sv));
    [lia | reflexivity].
Qed.

Lemma backoff_lookup d (c : nat) :
  (c < 5)%nat -> backoff d !! c = Some (d * 2 ^ (Z.of_nat c + 1 - 1)).
Proof.
  intros Hc. do 5 (destruct c as [|c]; [simpl; f_equal; lia|]). lia.
Qed.

Lemma take_drop_step {A} (l : list A) (c k : nat) x :
  l !! c = Some x -> take (S k) (drop c l) = x :: take k (drop (S c) l).
Proof.
  revert c. induction l as [|y l IH]; intros [|c] Hx; simplify_eq/=; auto.
Qed.

(** [k] calls in a row, starting from a counter that stands at [c]. *)
Lemma scheduleReconnect_iter this (k : nat) : forall w sv (c : nat),
  instances w !! this = Some sv ->
  maxReconnectAttempts sv = 5 ->
  reconnectAttempts sv = Z.of_nat c ->
  timers (Nat.iter k (scheduleReconnect this) w) =
    timers w ++ (pair this <$> take k (drop c (backoff (reconnectDelay sv)))).
Proof.
  induction k as [|k IH]; intros w sv c Hsv Hmax Hc.
  - simpl. by rewrite app_nil_r.
  - rewrite Nat.iter_succ_r.
    destruct (decide (c < 5)%nat) as [Hlt|Hge].
    + rewrite (scheduleReconnect_below this w sv) by (auto; lia).
      erewrite (IH _ (set_reconnectAttempts (reconnectAttempts sv + 1) sv)
                  (S c)); cycle 1.
      * simpl. rewrite list_lookup_alter_eq, Hsv. reflexivity.
      * exact Hmax.
      * simpl. lia.
      * simpl. rewrite (take_drop_step _ c k _ (backoff_lookup _ c Hlt)).
        rewrite Hc. simpl. by rewrite <- app_assoc.
    + rewrite (scheduleReconnect_at_cap this w sv) by (auto; lia).
      erewrite (IH _ sv c); eauto.
      rewrite !drop_ge by (simpl; lia). by rewrite !take_nil.
Qed.

(** C1: the [n]-th reconnect in a row (1 <= n <= 5) is scheduled after
    [reconnectDelay * 2^(n-1)] and brings the counter to [n]; at the cap
    nothing is scheduled; and so [k] failures in a row of a fresh service
    with base delay [d] schedule the first [k] of [d, 2d, 4d, 8d, 16d] and
    never a sixth. *)
Theorem reconnect_delay_sequence this w sv :
  instances w !! this = Some sv ->
  maxReconnectAttempts sv = 5 ->
  (forall n, 1 <= n <= 5 -> reconnectAttempts sv = n - 1 ->
     timers (scheduleReconnect this w) =
       timers w ++ [(this, reconnectDelay sv * 2 ^ (n - 1))]
     /\ reconnectAttempts <$> instances (scheduleReconnect this w) !! this
        = Some n)
  /\ (5 <= reconnectAttempts sv ->
      timers (scheduleReconnect this w) = timers w
      /\ instances (scheduleReconnect this w) = instances w)
  /\ (reconnectAttempts sv = 0 ->
      forall k : nat,
        timers (Nat.iter k (scheduleReconnect this) w) =
          timers w ++ (pair this <$> take k (backoff (reconnectDelay sv)))).
Proof.
  intros Hsv Hmax. split; [|split].
  - intros n Hn Hc.
    rewrite (scheduleReconnect_below this w sv) by (auto; lia).
    simpl. rewrite list_lookup_alter_eq, Hsv. simpl.
    rewrite Hc. replace (n - 1 + 1 - 1) with (n - 1) by lia.
    split; [reflexivity | f_equal; lia].
  - intros Hc.
    rewrite (scheduleReconnect_at_cap this w sv) by (auto; lia). done.
  - intros Hc k.
    apply (scheduleReconnect_iter this k w sv 0%nat); auto.
Qed.

(** ** The dispatcher *)

Lemma prefix_app (a s : string) : String.prefix a (a +:+ s) = true.
Proof.
  induction a as [|c a IH]; simpl; [by destruct s|].
  by destruct (Ascii.ascii_dec c c).
Qed.

Lemma prefix_split (a s : string) :
  String.prefix a s = true -> exists post, s = a +:+ post.
Proof.
  revert s. induction a as [|c a IH]; intros s H.
  - by exists s.
  - destruct s as [|c' s]; [done|]. simpl in H.
    destruct (Ascii.ascii_dec c c') as [->|]; [|done].
    destruct (IH s H) as [post ->]. by exists post.
Qed.

Lemma includes_unfold (needle s : string) :
  Str.includes needle s =
    String.prefix needle s
    || match s with
       | EmptyString => false
       | String _ r => Str.includes needle r
       end.
Proof. by destruct s. Qed.

(** [Str.includes] is substring containment. *)
Lemma includes_spec (needle s : string) :
  Str.includes needle s = true <->
  exists pre post, s = pre +:+ needle +:+ post.
Proof.
  split.
  - induction s as [|c s IH]; rewrite includes_unfold; intros H;
      apply orb_true_iff in H as [H|H]; try done.
    + destruct (prefix_split _ _ H) as [post ->]. by exists "", post.
    + destruct (prefix_split _ _ H) as [post Hpost]. by exists "", post.
    + destruct (IH H) as (pre & post & ->). by exists (String c pre), post.
  - intros (pre & post & ->). induction pre as [|c pre IH];
      rewrite includes_unfold.
    + change ("" +:+ needle +:+ post) with (needle +:+ post).
      by rewrite prefix_app.
    + change (String c pre +:+ needle +:+ post)
        with (String c (pre +:+ needle +:+ post)).
      cbv beta iota. rewrite IH. apply orb_true_r.
Qed.

Lemma unrecognized_cases (type : value) :
  recognized type = false ->
  is_string type "connection_established" = false
  /\ is_string type "balance_update" = false
  /\ is_string type "transaction_notification" = false
  /\ is_string type "bot_status_update" = false
  /\ is_string type "system_notification" = false
  /\ is_string type "error_notification" = false
  /\ is_string type "pong" = false.
Proof.
  unfold recognized, recognized_types. simpl.
  rewrite !orb_false_iff. tauto.
Qed.

(** C5: an envelope whose [type] is none of the seven recognized values is
    logged and dropped: the [try] block completes normally (nothing is
    thrown, nothing caught), and the only effects are the two console lines,
    so no callback is invoked.  A frame without any discriminant (malformed,
    or [null]) leaves console lines only as well. *)
Theorem unknown_type_is_logged_and_dropped
    (cbs : WebSocketCallbacks) (source : Topic) :
  (forall message type,
     getProp (Some message) "type" = Normal type ->
     recognized type = false ->
     handleMessage_try cbs (Parsed message) source =
       ([Console LLog (MessageFrom source message);
         Console LLog (UnknownMessageType type)], Normal tt)
     /\ handleMessage cbs (Parsed message) source =
       [Console LLog (MessageFrom source message);
        Console LLog (UnknownMessageType type)])
  /\ (forall data,
        match frame_type data with
        | Some type => recognized type = false
        | None => True
        end ->
        forallb is_console (handleMessage cbs data source) = true).
Proof.
  assert (forall message type,
     getProp (Some message) "type" = Normal type ->
     recognized type = false ->
     handleMessage_try cbs (Parsed message) source =
       ([Console LLog (MessageFrom source message);
         Console LLog (UnknownMessageType type)], Normal tt)) as Htry.
  { intros message type Hty Hun.
    destruct (unrecognized_cases type Hun) as (H1&H2&H3&H4&H5&H6&H7).
    unfold handleMessage_try. simpl. unfold lift. rewrite Hty. simpl.
    by rewrite H1, H2, H3, H4, H5, H6, H7. }
  split.
  - intros message type Hty Hun. split; [by apply Htry|].
    unfold handleMessage. by rewrite (Htry message type Hty Hun).
  - intros [|message]; simpl; [done|].
    destruct (getProp (Some message) "type") as [type|] eqn:Hty.
    + intros Hun. unfold handleMessage. by rewrite (Htry message type Hty Hun).
    + intros _. unfold handleMessage, handleMessage_try. simpl.
      unfold lift. by rewrite Hty.
Qed.

(** *** Digits in groups of three *)

(** The host of the examples prints an integer the way [en-US] does.  Its
    output is the digits of the number cut into groups, the first of one
    to three digits and every other of exactly three, with a comma before
    each group but the first. *)

Lemma commas_short (k : nat) (r : list ascii) :
  (length r <= S k)%nat -> EnUS.commas k r = r.
Proof.
  revert k. induction r as [|d r IH]; intros k Hlen; [done|].
  destruct r as [|d' r]; [done|].
  destruct k as [|k]; [simpl in Hlen; lia|].
  change (EnUS.commas (S k) (d :: d' :: r))
    with (d :: EnUS.commas k (d' :: r)).
  rewrite IH; [done|]. simpl in *. lia.
Qed.

Lemma commas_full (k : nat) (a r : list ascii) :
  length a = S k -> r <> [] ->
  EnUS.commas k (a ++ r) = a ++ ","%char :: EnUS.commas 2 r.
Proof.
  revert k. induction a as [|d a IH]; intros k Hlen Hr; [done|].
  destruct k as [|k].
  - destruct a; [|done]. destruct r; done.
  - destruct a as [|d' a]; [done|].
    change (EnUS.commas (S k) ((d :: d' :: a) ++ r))
      with (d :: EnUS.commas k ((d' :: a) ++ r)).
    rewrite IH; [done| |done]. simpl in *. lia.
Qed.

Lemma commas_groups (n : nat) : forall r : list ascii,
  (length r <= n)%nat -> r <> [] ->
  exists gs g,
    EnUS.commas 2 r = concat (map (fun x => x ++ [","%char]) gs) ++ g
    /\ Forall (fun x => length x = 3%nat) gs
    /\ (1 <= length g <= 3)%nat
    /\ concat gs ++ g = r.
Proof.
  induction n as [|n IH]; intros r Hlen Hr.
  { destruct r; [done|simpl in Hlen; lia]. }
  destruct (decide (length r <= 3)%nat) as [Hshort|Hlong].
  - exists [], r. rewrite commas_short by done. repeat split; try done.
    destruct r; [done|simpl; lia].
  - assert (length (take 3 r) = 3%nat) as Htake by (rewrite length_take; lia).
    assert (drop 3 r <> []) as Hdrop.
    { intros Hnil. apply (f_equal length) in Hnil.
      rewrite length_drop in Hnil. simpl in Hnil. lia. }
    destruct (IH (drop 3 r)) as (gs & g & Hc & Hgs & Hg & Hcat);
      [rewrite length_drop; lia|done|].
    exists (take 3 r :: gs), g.
    rewrite <- (take_drop 3 r) at 1.
    rewrite (commas_full 2 _ _ Htake Hdrop), Hc.
    split; [|split; [by constructor|split; [done|]]].
    + cbn [map concat]. by rewrite <- !app_assoc.
    + cbn [concat]. by rewrite <- app_assoc, Hcat, take_drop.
Qed.

Lemma rev_concat_sep (gs : list (list ascii)) :
  rev (concat (map (fun x => x ++ [","%char]) gs))
  = concat (map (fun x => ","%char :: x) (map (@rev ascii) (rev gs))).
Proof.
  induction gs as [|x gs IH]; [done|]. simpl.
  rewrite rev_app_distr, IH, !map_app, concat_app, rev_app_distr. simpl.
  by rewrite app_nil_r.
Qed.

Lemma rev_concat (gs : list (list ascii)) :
  rev (concat gs) = concat (map (@rev ascii) (rev gs)).
Proof.
  induction gs as [|x gs IH]; [done|]. simpl.
  rewrite rev_app_distr, IH, map_app, concat_app. simpl.
  by rewrite app_nil_r.
Qed.

Lemma grouped_groups (ds : list ascii) :
  ds <> [] ->
  exists first rest,
    EnUS.grouped ds = first ++ concat (map (fun g => ","%char :: g) rest)
    /\ (1 <= length first <= 3)%nat
    /\ Forall (fun g => length g = 3%nat) rest
    /\ first ++ concat rest = ds.
Proof.
  intros Hds. unfold EnUS.grouped.
  destruct (commas_groups (length (rev ds)) (rev ds)) as (gs & g & Hc & Hgs & Hg & Hcat);
    [done| |].
  { intros Hnil. apply (f_equal (@rev ascii)) in Hnil.
    by rewrite rev_involutive in Hnil. }
  exists (rev g), (map (@rev ascii) (rev gs)).
  rewrite Hc, rev_app_distr, rev_concat_sep. split; [done|].
  split; [by rewrite length_rev|]. split.
  - apply Forall_map, Forall_rev. eapply Forall_impl; [done|].
    intros x Hx. simpl. by rewrite length_rev.
  - rewrite <- rev_concat, <- rev_app_distr, Hcat. apply rev_involutive.
Qed.

Lemma digits_of_nonempty (n : Z) : EnUS.digits_of n <> [].
Proof.
  unfold EnUS.digits_of, NilZero.string_of_uint.
  by destruct (N.to_uint (Z.to_N (Z.abs n))).
Qed.

Lemma toLocaleString_groups (n : Z) :
  exists first rest,
    EnUS.toLocaleString n
      = (if n <? 0 then "-" else "")
        +:+ String.string_of_list_ascii
              (first ++ concat (map (fun g => ","%char :: g) rest))
    /\ (1 <= length first <= 3)%nat
    /\ Forall (fun g => length g = 3%nat) rest
    /\ first ++ concat rest = EnUS.digits_of n.
Proof.
  destruct (grouped_groups (EnUS.digits_of n) (digits_of_nonempty n))
    as (first & rest & Hg & Hfirst & Hrest & Hcat).
  exists first, rest. unfold EnUS.toLocaleString. by rewrite Hg.
Qed.

#[local] Arguments call_toLocaleString : simpl never.

(** C6, as the code has it.  For a [transaction_notification] that carries
    a transaction (a truthy [data.transaction]) the dispatcher reads the
    category [transaction_type] and the [amount], whatever they are.  The
    polarity is [Received] when the category is a string that contains
    [receive], or an array with the element [receive]; it is [Sent]
    otherwise, also when there is no category; a category that is a
    number, a boolean or an object has no [includes], and then no toast is
    shown at all.  The amount shown is [amount.toLocaleString()]: for a
    number what the host's locale prints, for a string the string itself
    with nothing added, [0] when the amount is missing or prints as the
    empty string.  One toast is shown, and none when the registered
    callback throws first.  [includes] is substring containment, and on
    the [en-US] host of the examples every integer is printed with its
    digits in groups of three. *)
Theorem transaction_toast_polarity
    (cbs : WebSocketCallbacks) (source : Topic)
    (message : json) (data tx : value) :
  getProp (Some message) "type"
    = Normal (Some (JStr "transaction_notification")) ->
  getProp (Some message) "data" = Normal data ->
  getProp data "transaction" = Normal tx ->
  truthy tx = true ->
  (exists category amount,
     getProp tx "transaction_type" = Normal category
     /\ getProp tx "amount" = Normal amount
     /\ let isReceive :=
          match category with
          | None | Some JNull => Some false
          | Some (JStr name) => Some (Str.includes "receive" name)
          | Some (JArr items) =>
              Some (existsb (fun e => match e with
                                      | JStr s => String.eqb s "receive"
                                      | _ => false
                                      end) items)
          | Some (JBool _) | Some (JNum _) | Some (JObj _) => None
          end in
        let printed :=
          match amount with
          | None | Some JNull => Some ""
          | Some (JStr s) => Some s
          | Some (JNum n) => Some (num_toLocaleString n)
          | Some v => match call_toLocaleString v with
                      | Normal s => Some s
                      | Abrupt => None
                      end
          end in
        toasts (handleMessage cbs (Parsed message) source) =
          match isReceive, printed with
          | Some r, Some s =>
              if returns (cb_onTransactionNotification cbs) data then
                [Toast ToastSuccess
                   (JStr ((if r then "Received" else "Sent") +:+ " KES "
                          +:+ (if String.eqb s "" then "0" else s)))
                   (Some 4000)
                   (Some (if r then MoneyBag else MoneyWithWings))]
              else []
          | _, _ => []
          end)
  /\ (forall name : string,
        Str.includes "receive" name = true
        <-> exists pre post, name = pre +:+ "receive" +:+ post)
  /\ (forall n : Z,
        exists first rest,
          EnUS.toLocaleString n
            = (if n <? 0 then "-" else "")
              +:+ String.string_of_list_ascii
                    (first ++ concat (map (fun g => ","%char :: g) rest))
          /\ (1 <= length first <= 3)%nat
          /\ Forall (fun g => length g = 3%nat) rest
          /\ first ++ concat rest = EnUS.digits_of n).
Proof.
  intros Hty Hdata Htx Htruthy.
  split; [|split; [intros name; apply includes_spec
                  |apply toLocaleString_groups]].
  destruct (getProp tx "transaction_type") as [category|] eqn:Hc;
    [|by destruct tx as [[]|]].
  destruct (getProp tx "amount") as [amount|] eqn:Ha;
    [|by destruct tx as [[]|]].
  exists category, amount. split; [done|]. split; [done|]. cbv zeta.
  unfold handleMessage, handleMessage_try, transaction_toast. simpl.
  unfold lift. rewrite Hty, Hdata. simpl.
  unfold returns, invoke.
  destruct (cb_onTransactionNotification cbs) as [f|]; simpl;
    [destruct (f data) as [[]|]; simpl|];
    rewrite ?Htx; simpl; rewrite ?Htruthy;
    unfold isReceive_of, amount_of, lift; rewrite ?Hc, ?Ha;
    destruct category as [[|cb|cn|name|citems|cfields]|],
             amount as [[|ab|an|text|aitems|afields]|];
    simpl;
    try (by destruct (call_toLocaleString (JArr aitems)));
    try (by destruct (call_toLocaleString (JObj afields)));
    unfold call_toLocaleString; simpl; try destruct ab; done.
Qed.

(** ** Sending *)

(** C7: [sendMessage] to a topic whose socket is missing or not [OPEN]
    drops the message: for every payload and topic nothing changes but the
    console, which gets the warning; no frame reaches a socket and nothing
    is thrown (not even caught). *)
Theorem send_when_not_open_is_dropped
    this w sv (message : Payload) (socketType : Topic) :
  instances w !! this = Some sv ->
  match socket_of socketType sv with
  | Some s => is_open w s = false
  | None => True
  end ->
  let w' := sendMessage this message socketType w in
  w' = emit (Console LWarn (NotConnected socketType)) w
  /\ instances w' = instances w
  /\ sockets w' = sockets w
  /\ timers w' = timers w
  /\ websocketService w' = websocketService w
  /\ out w' = out w ++ [Console LWarn (NotConnected socketType)].
Proof.
  intros Hsv Hclosed w'. subst w'. unfold sendMessage. rewrite Hsv.
  destruct (socket_of socketType sv) as [s|]; [rewrite Hclosed|]; done.
Qed.

(** ** Disconnecting *)

Lemma release_frame t this w :
  timers (release t this w) = timers w
  /\ out (release t this w) = out w
  /\ calls (release t this w) = calls w
  /\ websocketService (release t this w) = websocketService w
  /\ length (sockets (release t this w)) = length (sockets w).
Proof.
  unfold release. repeat case_match; simpl; rewrite ?length_alter; done.
Qed.

Lemma release_instance t this w sv :
  instances w !! this = Some sv ->
  instances (release t this w) !! this = Some (set_socket t None sv).
Proof.
  intros Hsv. unfold release. rewrite Hsv.
  destruct (socket_of t sv) eqn:Hs; simpl.
  - by rewrite list_lookup_alter_eq, Hsv.
  - rewrite Hsv. f_equal. destruct sv, t; simpl in *; by subst.
Qed.

Lemma disconnect_timers this w : timers (disconnect this w) = timers w.
Proof.
  unfold disconnect. simpl.
  destruct (release_frame notifications this
              (release bots this (release wallet this w))) as [-> _].
  destruct (release_frame bots this (release wallet this w)) as [-> _].
  by destruct (release_frame wallet this w) as [-> _].
Qed.

Lemma disconnect_sockets_length this w :
  length (sockets (disconnect this w)) = length (sockets w).
Proof.
  unfold disconnect. simpl.
  destruct (release_frame notifications this
              (release bots this (release wallet this w))) as (_&_&_&_&->).
  destruct (release_frame bots this (release wallet this w)) as (_&_&_&_&->).
  by destruct (release_frame wallet this w) as (_&_&_&_&->).
Qed.

Lemma disconnect_instance this w sv :
  instances w !! this = Some sv ->
  instances (disconnect this w) !! this =
    Some (sv |> set_socket wallet None |> set_socket bots None
             |> set_socket notifications None).
Proof.
  intros Hsv. unfold disconnect. simpl.
  apply release_instance, release_instance, release_instance, Hsv.
Qed.

(** [connect()] on an instance that is not connecting and whose wallet URL
    the constructor takes: a new socket, [CONNECTING], in the wallet field. *)
Lemma connect_opens_wallet this w sv :
  instances w !! this = Some sv ->
  isConnecting sv = false ->
  url_accepted (wsUrl sv wallet) = true ->
  let s := length (sockets w) in
  instances (connect this w) !! this =
    Some (sv |> set_isConnecting true |> set_socket wallet (Some s)
             |> set_awaiting (Some {| aw_call := calls w; aw_stage := wallet;
                                      aw_socket := s |}))
  /\ sockets (connect this w) =
       sockets w ++ [{| ws_owner := this; ws_topic := wallet;
                        ws_url := wsUrl sv wallet;
                        readyState := CONNECTING |}]
  /\ timers (connect this w) = timers w
  /\ out (connect this w) = out w
  /\ calls (connect this w) = S (calls w).
Proof.
  intros Hsv Hidle Hurl s. unfold connect. rewrite Hsv, Hidle.
  unfold connectWallet, connectChannel. simpl.
  rewrite list_lookup_alter_eq, Hsv. simpl.
  change (wsUrl (set_isConnecting true sv) wallet) with (wsUrl sv wallet).
  rewrite Hurl. simpl.
  rewrite !list_lookup_alter_eq, Hsv. simpl.
  done.
Qed.

(** C9: [disconnect()] cancels no timer.  A reconnect that was pending when
    [disconnect()] ran still fires afterwards and runs [connect()] on the
    state [disconnect()] left (the three socket fields cleared); unless a
    [connect()] is in flight at that moment, this opens a new wallet socket,
    so the connection is made again after the explicit disconnect. *)
Theorem pending_reconnect_survives_disconnect this w :
  timers (disconnect this w) = timers w
  /\ forall k delay,
       timers w !! k = Some (this, delay) ->
       let w' := step (disconnect this w) (TimerFired k) in
       w' = connect this
              (set_timers (delete k (timers w)) (disconnect this w))
       /\ forall sv,
            instances w !! this = Some sv ->
            isConnecting sv = false ->
            url_accepted (wsUrl sv wallet) = true ->
            (walletSocket <$> instances w' !! this)
              = Some (Some (length (sockets w)))
            /\ (isConnecting <$> instances w' !! this) = Some true
            /\ ready w' (length (sockets w)) = Some CONNECTING.
Proof.
  split; [apply disconnect_timers|].
  intros k delay Hk w'. subst w'. unfold step.
  rewrite disconnect_timers, Hk. split; [done|].
  intros sv Hsv Hidle Hurl.
  pose proof (disconnect_instance this w sv Hsv) as Hsv'.
  set (w1 := set_timers (delete k (timers w)) (disconnect this w)).
  destruct (connect_opens_wallet this w1 _ Hsv' Hidle Hurl)
    as (Hi & Hs & _).
  assert (length (sockets w1) = length (sockets w)) as Hlen
    by apply disconnect_sockets_length.
  rewrite Hlen in Hi. rewrite Hi. simpl. repeat split.
  unfold ready. rewrite Hs, <- Hlen.
  by rewrite list_lookup_middle.
Qed.

(** ** Counting in a trace *)

Lemma count_app p (l l' : list Effect) :
  count p (l ++ l') = (count p l + count p l')%nat.
Proof. induction l as [|x l IH]; simpl; [done|]. destruct (p x); lia. Qed.

Lemma settlements_app (l l' : list Effect) :
  settlements (l ++ l') = settlements l ++ settlements l'.
Proof.
  induction l as [|x l IH]; simpl; [done|]. destruct x; simpl; congruence.
Qed.

(** ** The effects of the dispatcher *)

Lemma clean_ret {A} (a : A) : clean (ret a).
Proof. constructor. Qed.

Lemma clean_lift {A} (c : Completion A) : clean (lift c).
Proof. constructor. Qed.

Lemma clean_perform e : ui_effect e -> clean (perform e).
Proof. intros. by constructor. Qed.

Lemma clean_bind {A B} (m : Try A) (k : A -> Try B) :
  clean m -> (forall a, clean (k a)) -> clean (bind m k).
Proof.
  destruct m as [es [a|]]; unfold clean; simpl; intros Hm Hk; [|done].
  specialize (Hk a). destruct (k a) as [es' r]. simpl in *.
  by apply Forall_app.
Qed.

Lemma clean_invoke name h arg :
  name <> onDisconnect -> clean (invoke name h arg).
Proof.
  intros Hne. destruct h as [f|]; unfold clean; simpl; constructor; done.
Qed.

Ltac clean :=
  repeat first
    [ apply clean_ret | apply clean_lift
    | apply clean_perform; done
    | apply clean_invoke; done
    | apply clean_bind; [|intros ?]
    | case_match ].

Lemma clean_handleMessage_try cbs data source :
  clean (handleMessage_try cbs data source).
Proof.
  unfold handleMessage_try, transaction_toast, system_toast, error_toast,
    isReceive_of, amount_of, JSON_parse.
  clean.
Qed.

(** The dispatcher logs, shows toasts and calls callbacks other than
    [onDisconnect]; it does nothing else. *)
Lemma ui_handleMessage cbs data source :
  Forall ui_effect (handleMessage cbs data source).
Proof.
  unfold handleMessage.
  pose proof (clean_handleMessage_try cbs data source) as H.
  destruct (handleMessage_try cbs data source) as [es [[]|]]; [done|].
  apply Forall_app. split; [done|]. by constructor.
Qed.

Lemma ui_allowed b e : ui_effect e -> allowed b e.
Proof. destruct e; simpl; try done. Qed.

Lemma ui_settlements es : Forall ui_effect es -> settlements es = [].
Proof. induction 1 as [|e es He _ IH]; [done|]. by destruct e. Qed.

(** ** The effects of a turn *)

Create HintDb emits.

Section Emits.

Variable b : bool.

Lemma extends_refl w : extends b w w.
Proof. exists []. by rewrite app_nil_r. Qed.

Lemma extends_emit_all w0 w es :
  Forall (allowed b) es -> extends b w0 w -> extends b w0 (emit_all es w).
Proof.
  intros Hes (es0 & Hout & Hall). exists (es0 ++ es). simpl.
  rewrite Hout, app_assoc. split; [done|]. by apply Forall_app.
Qed.

Lemma extends_emit w0 w e :
  allowed b e -> extends b w0 w -> extends b w0 (emit e w).
Proof. intros He. apply (extends_emit_all w0 w [e]). by constructor. Qed.

Lemma extends_quiet w0 w w' :
  out w' = out w -> extends b w0 w -> extends b w0 w'.
Proof. intros Hq (es & Hout & Hall). exists es. by rewrite Hq. Qed.

Lemma extends_update w0 w this f :
  extends b w0 w -> extends b w0 (update this f w).
Proof. by apply extends_quiet. Qed.

Lemma extends_set_sockets w0 w l :
  extends b w0 w -> extends b w0 (set_sockets l w).
Proof. by apply extends_quiet. Qed.

Lemma extends_set_timers w0 w l :
  extends b w0 w -> extends b w0 (set_timers l w).
Proof. by apply extends_quiet. Qed.

Lemma extends_set_instances w0 w l :
  extends b w0 w -> extends b w0 (set_instances l w).
Proof. by apply extends_quiet. Qed.

Lemma extends_set_websocketService w0 w o :
  extends b w0 w -> extends b w0 (set_websocketService o w).
Proof. by apply extends_quiet. Qed.

Lemma extends_set_calls w0 w n :
  extends b w0 w -> extends b w0 (set_calls n w).
Proof. by apply extends_quiet. Qed.

Lemma extends_setTimeout w0 w this delay :
  extends b w0 w -> extends b w0 (setTimeout this delay w).
Proof.
  intros H. unfold setTimeout. apply extends_emit; [done|].
  by apply extends_set_timers.
Qed.

Lemma extends_settle w0 w call :
  extends b w0 w -> extends b w0 (settle call Fulfilled w).
Proof. intros H. by apply extends_emit. Qed.

#[local] Hint Resolve extends_refl extends_update extends_set_sockets
  extends_set_timers extends_set_instances extends_set_websocketService
  extends_set_calls extends_setTimeout extends_settle : emits.
#[local] Hint Extern 1 (extends _ _ (emit _ _)) =>
  apply extends_emit; [done|] : emits.

Lemma extends_scheduleReconnect w0 w this :
  extends b w0 w -> extends b w0 (scheduleReconnect this w).
Proof.
  intros H. unfold scheduleReconnect. repeat case_match; auto 9 with emits.
Qed.
#[local] Hint Resolve extends_scheduleReconnect : emits.

Lemma extends_connect_catch w0 w this call :
  extends b w0 w -> extends b w0 (connect_catch this call w).
Proof. intros H. unfold connect_catch. auto 9 with emits. Qed.
#[local] Hint Resolve extends_connect_catch : emits.

Lemma extends_connectChannel w0 w t this call :
  extends b w0 w -> extends b w0 (connectChannel t this call w).
Proof.
  intros H. unfold connectChannel. repeat case_match; auto 9 with emits.
Qed.
#[local] Hint Resolve extends_connectChannel : emits.

Lemma extends_connect w0 w this :
  extends b w0 w -> extends b w0 (connect this w).
Proof.
  intros H. unfold connect, connectWallet. repeat case_match; auto 9 with emits.
Qed.
#[local] Hint Resolve extends_connect : emits.

Lemma extends_connect_resume w0 w this call stage :
  extends b w0 w -> extends b w0 (connect_resume this call stage w).
Proof.
  intros H. unfold connect_resume, connectBots, connectNotifications.
  destruct stage; auto 9 with emits.
Qed.
#[local] Hint Resolve extends_connect_resume : emits.

Lemma extends_resolve w0 w this s :
  extends b w0 w -> extends b w0 (resolve this s w).
Proof. intros H. unfold resolve. case_match; auto 9 with emits. Qed.

Lemma extends_reject w0 w this s :
  extends b w0 w -> extends b w0 (reject this s w).
Proof. intros H. unfold reject. case_match; auto 9 with emits. Qed.
#[local] Hint Resolve extends_resolve extends_reject : emits.

Lemma extends_onopen w0 w s :
  extends b w0 w -> extends b w0 (onopen s w).
Proof. intros H. unfold onopen. case_match; auto 9 with emits. Qed.

Lemma extends_onerror w0 w s :
  extends b w0 w -> extends b w0 (onerror s w).
Proof. intros H. unfold onerror. case_match; auto 9 with emits. Qed.

Lemma allowed_handleMessage cbs data source :
  Forall (allowed b) (handleMessage cbs data source).
Proof.
  eapply Forall_impl; [apply ui_handleMessage|]. apply ui_allowed.
Qed.

Lemma extends_onmessage w0 w s data :
  extends b w0 w -> extends b w0 (onmessage s data w).
Proof.
  intros H. unfold onmessage. repeat case_match; auto.
  apply extends_emit_all; [apply allowed_handleMessage | done].
Qed.

Lemma extends_sendMessage w0 w this message socketType :
  extends b w0 w -> extends b w0 (sendMessage this message socketType w).
Proof. intros H. unfold sendMessage. repeat case_match; auto 9 with emits. Qed.

Lemma extends_close w0 w s : extends b w0 w -> extends b w0 (close s w).
Proof. by apply extends_quiet. Qed.
#[local] Hint Resolve extends_close : emits.

Lemma extends_release w0 w t this :
  extends b w0 w -> extends b w0 (release t this w).
Proof. intros H. unfold release. repeat case_match; auto 9 with emits. Qed.
#[local] Hint Resolve extends_release : emits.

Lemma extends_disconnect w0 w this :
  extends b w0 w -> extends b w0 (disconnect this w).
Proof. intros H. unfold disconnect. auto 9 with emits. Qed.
#[local] Hint Resolve extends_disconnect : emits.

Lemma extends_initializeWebSocket w0 w base token user cbs :
  extends b w0 w ->
  extends b w0 (initializeWebSocket base token user cbs w).
Proof.
  intros H. unfold initializeWebSocket, setCallbacks.
  case_match; auto 9 with emits.
Qed.

Lemma extends_disconnectWebSocket w0 w :
  extends b w0 w -> extends b w0 (disconnectWebSocket w).
Proof.
  intros H. unfold disconnectWebSocket. case_match; auto 9 with emits.
Qed.

(** The [close] handlers of the bots and notifications sockets *)
Lemma extends_onclose_other w0 w s sk :
  sockets w !! s = Some sk -> ws_topic sk <> wallet ->
  extends b w0 w -> extends b w0 (onclose s w).
Proof.
  intros Hs Ht H. unfold onclose. rewrite Hs.
  destruct (ws_topic sk); [done| |]; auto 9 with emits.
Qed.

End Emits.

(** The [close] handler of the wallet socket *)
Lemma extends_onclose_wallet w0 w s :
  extends true w0 w -> extends true w0 (onclose s w).
Proof.
  intros H. unfold onclose, call_onDisconnect.
  repeat case_match;
    repeat first [ apply extends_scheduleReconnect
                 | apply extends_emit; [done|] ]; done.
Qed.

(** Every turn continues the trace with allowed effects, and [onDisconnect]
    is among them only if the turn is the close of a wallet socket. *)
Lemma step_extends w e : extends (is_wallet_close w e) w (step w e).
Proof.
  destruct e; simpl.
  - apply extends_initializeWebSocket, extends_refl.
  - apply extends_disconnectWebSocket, extends_refl.
  - apply extends_update, extends_refl.
  - apply extends_connect, extends_refl.
  - apply extends_disconnect, extends_refl.
  - apply extends_sendMessage, extends_refl.
  - repeat case_match; try apply extends_refl.
    apply extends_onopen, extends_set_sockets, extends_refl.
  - repeat case_match; try apply extends_refl;
      apply extends_onerror, extends_refl.
  - unfold ready.
    destruct (sockets w !! s) as [sk|] eqn:Hs; simpl; [|apply extends_refl].
    assert (forall w1,
              sockets w1 !! s = Some (set_readyState CLOSED sk) ->
              extends (bool_decide (ws_topic sk = wallet)) w w1 ->
              extends (bool_decide (ws_topic sk = wallet)) w (onclose s w1))
      as Hclose.
    { intros w1 Hs1 H1. case_bool_decide as Ht.
      - by apply extends_onclose_wallet.
      - by apply (extends_onclose_other _ _ _ _ _ Hs1). }
    destruct (readyState sk); try apply extends_refl;
      (apply Hclose; [|apply extends_set_sockets, extends_refl]);
      simpl; by rewrite list_lookup_alter_eq, Hs.
  - repeat case_match; try apply extends_refl.
    apply extends_onmessage, extends_refl.
  - repeat case_match; try apply extends_refl.
    apply extends_connect, extends_set_timers, extends_refl.
Qed.

(** C10: [onDisconnect] is called only by the [close] handler of a wallet
    socket: whatever turn adds a call of it to the trace is the close of a
    socket opened by [connectWallet].  The close of a bots or notifications
    socket logs the line and runs the group's [scheduleReconnect], and calls
    no [onDisconnect]; the close of a wallet socket calls the registered
    [onDisconnect]. *)
Theorem onDisconnect_only_on_wallet_close w :
  (forall e es arg,
     out (step w e) = out w ++ es ->
     Invoke onDisconnect arg ∈ es ->
     exists s sk,
       e = SocketClosed s /\ sockets w !! s = Some sk
       /\ ws_topic sk = wallet)
  /\ (forall s sk,
        sockets w !! s = Some sk ->
        readyState sk <> CLOSED ->
        ws_topic sk <> wallet ->
        step w (SocketClosed s) =
          (w |> set_sockets (alter (set_readyState CLOSED) s (sockets w))
             |> emit (Console LLog (SocketDisconnected (ws_topic sk)))
             |> scheduleReconnect (ws_owner sk))
        /\ count is_onDisconnect (out (step w (SocketClosed s)))
           = count is_onDisconnect (out w))
  /\ (forall s sk sv r,
        sockets w !! s = Some sk ->
        readyState sk <> CLOSED ->
        ws_topic sk = wallet ->
        instances w !! ws_owner sk = Some sv ->
        cb_onDisconnect (callbacks sv) = Some r ->
        exists es,
          out (step w (SocketClosed s)) =
            out w ++ Console LLog (SocketDisconnected wallet)
                  :: Invoke onDisconnect None :: es).
Proof.
  assert (forall e es arg,
     out (step w e) = out w ++ es ->
     Invoke onDisconnect arg ∈ es ->
     exists s sk,
       e = SocketClosed s /\ sockets w !! s = Some sk
       /\ ws_topic sk = wallet) as Honly.
  { intros e es arg Hout Hin.
    destruct (step_extends w e) as (es' & Hout' & Hall).
    rewrite Hout in Hout'. apply app_inv_head in Hout' as <-.
    rewrite Forall_forall in Hall. destruct (Hall _ Hin eq_refl) as [Hb _].
    destruct e; try done. simpl in Hb.
    destruct (sockets w !! s) as [sk|] eqn:Hs; [|done].
    apply bool_decide_eq_true in Hb. by exists s, sk. }
  split; [exact Honly|]. split.
  - intros s sk Hs Hopen Ht.
    assert (step w (SocketClosed s) =
      (w |> set_sockets (alter (set_readyState CLOSED) s (sockets w))
         |> emit (Console LLog (SocketDisconnected (ws_topic sk)))
         |> scheduleReconnect (ws_owner sk))) as Heq.
    { simpl. unfold ready. rewrite Hs. simpl.
      destruct (readyState sk) eqn:Hr; try done;
        unfold onclose; simpl; rewrite list_lookup_alter_eq, Hs; simpl;
        by destruct (ws_topic sk). }
    split; [exact Heq|].
    destruct (step_extends w (SocketClosed s)) as (es & Hout & Hall).
    rewrite Hout. clear Heq Hout.
    assert (is_wallet_close w (SocketClosed s) = false) as Hb.
    { simpl. rewrite Hs. by apply bool_decide_eq_false. }
    rewrite Hb in Hall. clear Hb.
    rewrite count_app.
    assert (count is_onDisconnect es = 0%nat) as ->; [|lia].
    induction Hall as [|x es Hx Hall IH]; [done|]. simpl.
    destruct x as [| |name arg| | |]; simpl; try done.
    destruct name; try done. by destruct (Hx eq_refl).
  - intros s sk sv r Hs Hopen Ht Hsv Hcb. simpl. unfold ready.
    rewrite Hs. simpl.
    assert (onclose s
              (set_sockets (alter (set_readyState CLOSED) s (sockets w)) w)
            = (w |> set_sockets (alter (set_readyState CLOSED) s (sockets w))
                 |> emit (Console LLog (SocketDisconnected wallet))
                 |> emit (Invoke onDisconnect None)
                 |> match r with
                    | Normal _ => scheduleReconnect (ws_owner sk)
                    | Abrupt => fun w => w
                    end)) as ->.
    { unfold onclose. simpl. rewrite list_lookup_alter_eq, Hs. simpl.
      rewrite Ht. unfold call_onDisconnect. simpl. rewrite Hsv, Hcb.
      by destruct r. }
    assert (exists es,
      out (match r with
           | Normal _ => scheduleReconnect (ws_owner sk)
           | Abrupt => fun w => w
           end
             (w |> set_sockets
                     (alter (set_readyState CLOSED) s (sockets w))
                |> emit (Console LLog (SocketDisconnected wallet))
                |> emit (Invoke onDisconnect None)))
      = (out w ++ [Console LLog (SocketDisconnected wallet)]
               ++ [Invoke onDisconnect None]) ++ es) as [es Hes].
    { set (w1 := w |> set_sockets
                          (alter (set_readyState CLOSED) s (sockets w))
                    |> emit (Console LLog (SocketDisconnected wallet))
                    |> emit (Invoke onDisconnect None)).
      destruct r as [[]|].
      - destruct (extends_scheduleReconnect true w1 w1 (ws_owner sk)
                    (extends_refl true w1)) as (es & Hout & _).
        exists es. rewrite Hout. unfold w1. simpl.
        by rewrite <- (app_assoc (out w)).
      - exists []. unfold w1. simpl.
        by rewrite app_nil_r, <- (app_assoc (out w)). }
    exists es. destruct (readyState sk); try done;
      rewrite Hes, <- !app_assoc; done.
Qed.

(** ** One [connect()], stage by stage *)

Lemma connectChannel_accepted t this call w sv :
  instances w !! this = Some sv ->
  url_accepted (wsUrl sv t) = true ->
  let s := length (sockets w) in
  instances (connectChannel t this call w) !! this =
    Some (sv |> set_socket t (Some s)
             |> set_awaiting (Some {| aw_call := call; aw_stage := t;
                                      aw_socket := s |}))
  /\ sockets (connectChannel t this call w) =
       sockets w ++ [{| ws_owner := this; ws_topic := t;
                        ws_url := wsUrl sv t; readyState := CONNECTING |}]
  /\ timers (connectChannel t this call w) = timers w
  /\ out (connectChannel t this call w) = out w
  /\ calls (connectChannel t this call w) = calls w.
Proof.
  intros Hsv Hurl s. unfold connectChannel. rewrite Hsv, Hurl. simpl.
  by rewrite !list_lookup_alter_eq, Hsv.
Qed.

(** The [open] of the socket a [connect()] is waiting for resumes it. *)
Lemma step_opened_awaited w s sk sv a :
  sockets w !! s = Some sk ->
  readyState sk = CONNECTING ->
  instances w !! ws_owner sk = Some sv ->
  awaiting sv = Some a ->
  aw_socket a = s ->
  step w (SocketOpened s) =
    (w |> set_sockets (alter (set_readyState OPEN) s (sockets w))
       |> emit (Console LLog (SocketConnected (ws_topic sk)))
       |> update (ws_owner sk) (set_awaiting None)
       |> connect_resume (ws_owner sk) (aw_call a) (aw_stage a)).
Proof.
  intros Hs Hr Hsv Ha Hsock. simpl. unfold ready. rewrite Hs. simpl.
  rewrite Hr. unfold onopen. simpl. rewrite list_lookup_alter_eq, Hs. simpl.
  unfold resolve, waiting_on. simpl. rewrite Hsv, Ha, Hsock.
  by rewrite Nat.eqb_refl.
Qed.

(** The [open] of any other socket only logs. *)
Lemma step_opened_unawaited w s sk :
  sockets w !! s = Some sk ->
  readyState sk = CONNECTING ->
  waiting_on (ws_owner sk) s w = None ->
  step w (SocketOpened s) =
    (w |> set_sockets (alter (set_readyState OPEN) s (sockets w))
       |> emit (Console LLog (SocketConnected (ws_topic sk)))).
Proof.
  intros Hs Hr Hw. simpl. unfold ready. rewrite Hs. simpl.
  rewrite Hr. unfold onopen. simpl. rewrite list_lookup_alter_eq, Hs. simpl.
  unfold resolve.
  change (waiting_on (ws_owner sk) s
            (emit (Console LLog (SocketConnected (ws_topic sk)))
               (set_sockets (alter (set_readyState OPEN) s (sockets w)) w)))
    with (waiting_on (ws_owner sk) s w).
  by rewrite Hw.
Qed.

Lemma open_advances w s sk sv call stage next :
  sockets w !! s = Some sk ->
  readyState sk = CONNECTING ->
  instances w !! ws_owner sk = Some sv ->
  awaiting sv = Some {| aw_call := call; aw_stage := stage; aw_socket := s |} ->
  next_stage stage = Some next ->
  url_accepted (wsUrl sv next) = true ->
  let w' := step w (SocketOpened s) in
  let n := length (sockets w) in
  instances w' !! ws_owner sk =
    Some (sv |> set_awaiting None |> set_socket next (Some n)
             |> set_awaiting (Some {| aw_call := call; aw_stage := next;
                                      aw_socket := n |}))
  /\ sockets w' =
       alter (set_readyState OPEN) s (sockets w)
       ++ [{| ws_owner := ws_owner sk; ws_topic := next;
              ws_url := wsUrl sv next; readyState := CONNECTING |}]
  /\ timers w' = timers w
  /\ out w' = out w ++ [Console LLog (SocketConnected (ws_topic sk))]
  /\ calls w' = calls w.
Proof.
  intros Hs Hr Hsv Ha Hnext Hurl w' n. subst w'.
  rewrite (step_opened_awaited w s sk sv _ Hs Hr Hsv Ha eq_refl). simpl.
  set (w1 := w |> set_sockets (alter (set_readyState OPEN) s (sockets w))
               |> emit (Console LLog (SocketConnected (ws_topic sk)))
               |> update (ws_owner sk) (set_awaiting None)).
  assert (instances w1 !! ws_owner sk = Some (set_awaiting None sv)) as Hsv1.
  { unfold w1. simpl. by rewrite list_lookup_alter_eq, Hsv. }
  assert (connect_resume (ws_owner sk) call stage w1
          = connectChannel next (ws_owner sk) call w1) as ->.
  { by destruct stage; simplify_eq/=. }
  destruct (connectChannel_accepted next (ws_owner sk) call w1 _ Hsv1 Hurl)
    as (Hi & Hso & Ht & Ho & Hc).
  rewrite Hi, Hso, Ht, Ho, Hc. unfold w1. simpl.
  by rewrite length_alter.
Qed.

Lemma open_completes w s sk sv call :
  sockets w !! s = Some sk ->
  readyState sk = CONNECTING ->
  instances w !! ws_owner sk = Some sv ->
  awaiting sv = Some {| aw_call := call; aw_stage := notifications;
                        aw_socket := s |} ->
  let w' := step w (SocketOpened s) in
  instances w' !! ws_owner sk =
    Some (sv |> set_awaiting None |> set_reconnectAttempts 0
             |> set_isConnecting false)
  /\ sockets w' = alter (set_readyState OPEN) s (sockets w)
  /\ timers w' = timers w
  /\ out w' = out w ++ [Console LLog (SocketConnected (ws_topic sk));
                        Console LLog AllConnectionsEstablished;
                        Settled call Fulfilled]
  /\ calls w' = calls w.
Proof.
  intros Hs Hr Hsv Ha w'. subst w'.
  rewrite (step_opened_awaited w s sk sv _ Hs Hr Hsv Ha eq_refl). simpl.
  rewrite !list_lookup_alter_eq, Hsv. simpl.
  by rewrite <- !app_assoc.
Qed.

(** The [error] of the socket a [connect()] is waiting for throws it into
    its [catch] block. *)
Lemma step_failed_awaited w s sk sv a :
  sockets w !! s = Some sk ->
  readyState sk <> CLOSED ->
  instances w !! ws_owner sk = Some sv ->
  awaiting sv = Some a ->
  aw_socket a = s ->
  step w (SocketFailed s) =
    (w |> emit (Console LError (SocketError (ws_topic sk)))
       |> connect_catch (ws_owner sk) (aw_call a)).
Proof.
  intros Hs Hr Hsv Ha Hsock. simpl. unfold ready. rewrite Hs. simpl.
  assert (onerror s w =
    (w |> emit (Console LError (SocketError (ws_topic sk)))
       |> connect_catch (ws_owner sk) (aw_call a))) as Heq.
  { unfold onerror. rewrite Hs. unfold reject, waiting_on. simpl.
    by rewrite Hsv, Ha, Hsock, Nat.eqb_refl. }
  by destruct (readyState sk).
Qed.

(** What the [catch] block leaves. *)
Lemma connect_catch_spec this call w sv :
  instances w !! this = Some sv ->
  let w' := connect_catch this call w in
  let failed := sv |> set_awaiting None |> set_isConnecting false in
  (reconnectAttempts sv < maxReconnectAttempts sv ->
   let attempt := reconnectAttempts sv + 1 in
   let delay := reconnectDelay sv * 2 ^ (attempt - 1) in
   instances w' !! this = Some (set_reconnectAttempts attempt failed)
   /\ timers w' = timers w ++ [(this, delay)]
   /\ out w' = out w ++ [Console LError ErrorConnecting;
                         Console LLog (SchedulingReconnect delay attempt);
                         SetTimeout this delay;
                         Settled call Fulfilled])
  /\ (maxReconnectAttempts sv <= reconnectAttempts sv ->
      instances w' !! this = Some failed
      /\ timers w' = timers w
      /\ out w' = out w ++ [Console LError ErrorConnecting;
                            Console LError MaxAttemptsReached;
                            connection_lost;
                            Settled call Fulfilled])
  /\ sockets w' = sockets w
  /\ calls w' = calls w.
Proof.
  intros Hsv w' failed. subst w'. unfold connect_catch.
  set (w1 := w |> update this (set_awaiting None)
               |> emit (Console LError ErrorConnecting)
               |> update this (set_isConnecting false)).
  assert (instances w1 !! this = Some failed) as Hsv1.
  { unfold w1. simpl. by rewrite !list_lookup_alter_eq, Hsv. }
  split; [|split].
  - intros Hlt. cbv zeta.
    rewrite (scheduleReconnect_below this w1 failed Hsv1 Hlt). simpl.
    rewrite !list_lookup_alter_eq, Hsv. simpl.
    by rewrite <- !app_assoc.
  - intros Hge.
    rewrite (scheduleReconnect_at_cap this w1 failed Hsv1 Hge). simpl.
    rewrite !list_lookup_alter_eq, Hsv. simpl.
    by rewrite <- !app_assoc.
  - unfold scheduleReconnect. rewrite Hsv1. by case_match.
Qed.

(** ** The counter never leaves [0..5] *)

Create HintDb bounds.

Lemma bounded_quiet w w' :
  instances w' = instances w -> bounded w -> bounded w'.
Proof. unfold bounded. by intros ->. Qed.

Lemma bounded_update this f w :
  (forall sv, policy_ok sv -> policy_ok (f sv)) ->
  bounded w -> bounded (update this f w).
Proof. intros Hf Hw. apply Forall_alter; auto. Qed.

Lemma bounded_emit e w : bounded w -> bounded (emit e w).
Proof. by apply bounded_quiet. Qed.

Lemma bounded_emit_all es w : bounded w -> bounded (emit_all es w).
Proof. by apply bounded_quiet. Qed.

Lemma bounded_set_sockets l w : bounded w -> bounded (set_sockets l w).
Proof. by apply bounded_quiet. Qed.

Lemma bounded_set_timers l w : bounded w -> bounded (set_timers l w).
Proof. by apply bounded_quiet. Qed.

Lemma bounded_set_calls n w : bounded w -> bounded (set_calls n w).
Proof. by apply bounded_quiet. Qed.

Lemma bounded_set_websocketService o w :
  bounded w -> bounded (set_websocketService o w).
Proof. by apply bounded_quiet. Qed.

Lemma bounded_setTimeout this delay w :
  bounded w -> bounded (setTimeout this delay w).
Proof. by apply bounded_quiet. Qed.

Lemma bounded_settle call o w : bounded w -> bounded (settle call o w).
Proof. by apply bounded_quiet. Qed.

Lemma bounded_close s w : bounded w -> bounded (close s w).
Proof. by apply bounded_quiet. Qed.

Lemma bounded_set_socket this t o w :
  bounded w -> bounded (update this (set_socket t o) w).
Proof. by apply bounded_update. Qed.

Lemma bounded_set_awaiting this a w :
  bounded w -> bounded (update this (set_awaiting a) w).
Proof. by apply bounded_update. Qed.

Lemma bounded_set_isConnecting this c w :
  bounded w -> bounded (update this (set_isConnecting c) w).
Proof. by apply bounded_update. Qed.

Lemma bounded_set_callbacks this cbs w :
  bounded w -> bounded (update this (set_callbacks cbs) w).
Proof. by apply bounded_update. Qed.

Lemma bounded_reset this w :
  bounded w -> bounded (update this (set_reconnectAttempts 0) w).
Proof.
  apply bounded_update. intros sv (Hmax & Hdelay & Hn).
  repeat split; simpl; auto; lia.
Qed.

#[local] Hint Resolve bounded_emit bounded_emit_all bounded_set_sockets
  bounded_set_timers bounded_set_calls bounded_set_websocketService
  bounded_setTimeout bounded_settle bounded_close bounded_set_socket
  bounded_set_awaiting bounded_set_isConnecting bounded_set_callbacks
  bounded_reset : bounds.

Lemma bounded_scheduleReconnect this w :
  bounded w -> bounded (scheduleReconnect this w).
Proof.
  intros Hw. unfold scheduleReconnect.
  destruct (instances w !! this) as [sv|] eqn:Hsv; [|done].
  destruct (Z.ltb_spec (reconnectAttempts sv) (maxReconnectAttempts sv));
    [|auto with bounds].
  apply bounded_setTimeout, bounded_emit. apply Forall_alter; [done|].
  intros sv' Hsv' (Hmax & Hdelay & Hn). simplify_eq.
  repeat split; simpl; auto; lia.
Qed.
#[local] Hint Resolve bounded_scheduleReconnect : bounds.

Lemma bounded_connect_catch this call w :
  bounded w -> bounded (connect_catch this call w).
Proof. intros. unfold connect_catch. auto 9 with bounds. Qed.
#[local] Hint Resolve bounded_connect_catch : bounds.

Lemma bounded_connectChannel t this call w :
  bounded w -> bounded (connectChannel t this call w).
Proof.
  intros. unfold connectChannel. repeat case_match; auto 9 with bounds.
Qed.
#[local] Hint Resolve bounded_connectChannel : bounds.

Lemma bounded_connect this w : bounded w -> bounded (connect this w).
Proof.
  intros. unfold connect, connectWallet. repeat case_match; auto 9 with bounds.
Qed.

Lemma bounded_connect_resume this call stage w :
  bounded w -> bounded (connect_resume this call stage w).
Proof.
  intros. unfold connect_resume, connectBots, connectNotifications.
  destruct stage; auto 9 with bounds.
Qed.
#[local] Hint Resolve bounded_connect bounded_connect_resume : bounds.

Lemma bounded_release t this w : bounded w -> bounded (release t this w).
Proof. intros. unfold release. repeat case_match; auto 9 with bounds. Qed.
#[local] Hint Resolve bounded_release : bounds.

Lemma bounded_disconnect this w : bounded w -> bounded (disconnect this w).
Proof. intros. unfold disconnect. auto 9 with bounds. Qed.
#[local] Hint Resolve bounded_disconnect : bounds.

Lemma bounded_initializeWebSocket base token user cbs w :
  bounded w -> bounded (initializeWebSocket base token user cbs w).
Proof.
  intros Hw. unfold initializeWebSocket, setCallbacks.
  apply bounded_set_callbacks, bounded_set_websocketService.
  unfold bounded. simpl. apply Forall_app. split.
  - case_match; [by apply bounded_disconnect | done].
  - constructor; [|done]. repeat split; simpl; lia.
Qed.

Lemma bounded_step w e : bounded w -> bounded (step w e).
Proof.
  intros Hw. destruct e; simpl.
  - by apply bounded_initializeWebSocket.
  - unfold disconnectWebSocket. case_match; auto with bounds.
  - unfold setCallbacks. auto with bounds.
  - auto with bounds.
  - auto with bounds.
  - unfold sendMessage. repeat case_match; auto with bounds.
  - repeat case_match; auto. unfold onopen, resolve.
    repeat case_match; auto 9 with bounds.
  - repeat case_match; auto; unfold onerror, reject;
      repeat case_match; auto 9 with bounds.
  - repeat case_match; auto; unfold onclose, call_onDisconnect;
      repeat case_match; auto 9 with bounds.
  - repeat case_match; auto. unfold onmessage.
    repeat case_match; auto 9 with bounds.
  - repeat case_match; auto 9 with bounds.
Qed.

Lemma bounded_run es : forall w, bounded w -> bounded (run es w).
Proof.
  induction es as [|e es IH]; intros w Hw; [done|].
  simpl. apply IH. by apply bounded_step.
Qed.

Lemma bounded_initial : bounded initial.
Proof. constructor. Qed.

(** ** A [connect()] whose three sockets open *)

Lemma connect_succeeds this w sv :
  instances w !! this = Some sv ->
  isConnecting sv = false ->
  (forall t, url_accepted (wsUrl sv t) = true) ->
  let s := length (sockets w) in
  let mid := run [Connect this; SocketOpened s; SocketOpened (S s)] w in
  let w' := step mid (SocketOpened (S (S s))) in
  out mid = out w ++ [Console LLog (SocketConnected wallet);
                      Console LLog (SocketConnected bots)]
  /\ out w' = out mid ++ [Console LLog (SocketConnected notifications);
                          Console LLog AllConnectionsEstablished;
                          Settled (calls w) Fulfilled]
  /\ (exists sv',
        instances w' !! this = Some sv'
        /\ reconnectAttempts sv' = 0 /\ isConnecting sv' = false
        /\ awaiting sv' = None
        /\ walletSocket sv' = Some s /\ botsSocket sv' = Some (S s)
        /\ notificationsSocket sv' = Some (S (S s)))
  /\ ready w' s = Some OPEN /\ ready w' (S s) = Some OPEN
  /\ ready w' (S (S s)) = Some OPEN
  /\ timers w' = timers w.
Proof.
  intros Hsv Hidle Hurl s mid w'. subst w' mid. unfold run. cbn [fold_left].
  change (step w (Connect this)) with (connect this w).
  destruct (connect_opens_wallet this w sv Hsv Hidle (Hurl wallet))
    as (Hi1 & Hs1 & Ht1 & Ho1 & Hc1).
  fold s in Hi1. set (w1 := connect this w) in *.
  set (sk0 := {| ws_owner := this; ws_topic := wallet;
                 ws_url := wsUrl sv wallet; readyState := CONNECTING |}) in *.
  assert (sockets w1 !! s = Some sk0) as Hk1
    by (rewrite Hs1; by apply list_lookup_middle).
  assert (length (sockets w1) = S s) as Hl1
    by (rewrite Hs1, length_app; simpl; unfold s; lia).
  (* the wallet socket opens *)
  destruct (open_advances w1 s sk0 _ (calls w) wallet bots Hk1 eq_refl Hi1
              eq_refl eq_refl (Hurl bots)) as (Hi2 & Hs2 & Ht2 & Ho2 & Hc2).
  rewrite Hl1 in Hi2.
  change (ws_owner sk0) with this in Hi2, Hs2.
  change (ws_topic sk0) with wallet in Ho2.
  set (w2 := step w1 (SocketOpened s)) in *.
  set (sk1 := {| ws_owner := this; ws_topic := bots;
                 ws_url := wsUrl sv bots; readyState := CONNECTING |}) in *.
  assert (length (alter (set_readyState OPEN) s (sockets w1)) = S s) as Hl1'
    by (by rewrite length_alter).
  assert (sockets w2 !! S s = Some sk1) as Hk2
    by (rewrite Hs2; by apply list_lookup_middle).
  assert (length (sockets w2) = S (S s)) as Hl2
    by (rewrite Hs2, length_app, Hl1'; simpl; lia).
  (* the bots socket opens *)
  destruct (open_advances w2 (S s) sk1 _ (calls w) bots notifications
              Hk2 eq_refl Hi2 eq_refl eq_refl (Hurl notifications))
    as (Hi3 & Hs3 & Ht3 & Ho3 & Hc3).
  rewrite Hl2 in Hi3.
  change (ws_owner sk1) with this in Hi3, Hs3.
  change (ws_topic sk1) with bots in Ho3.
  set (w3 := step w2 (SocketOpened (S s))) in *.
  set (sk2 := {| ws_owner := this; ws_topic := notifications;
                 ws_url := wsUrl sv notifications;
                 readyState := CONNECTING |}) in *.
  assert (length (alter (set_readyState OPEN) (S s) (sockets w2)) = S (S s))
    as Hl2' by (by rewrite length_alter).
  assert (sockets w3 !! S (S s) = Some sk2) as Hk3
    by (rewrite Hs3; by apply list_lookup_middle).
  (* the notifications socket opens *)
  destruct (open_completes w3 (S (S s)) sk2 _ (calls w) Hk3 eq_refl Hi3
              eq_refl) as (Hi4 & Hs4 & Ht4 & Ho4 & Hc4).
  change (ws_owner sk2) with this in Hi4.
  change (ws_topic sk2) with notifications in Ho4.
  set (w4 := step w3 (SocketOpened (S (S s)))) in *.
  split; [by rewrite Ho3, Ho2, Ho1, <- app_assoc|].
  split; [exact Ho4|].
  split; [eexists; split; [exact Hi4|]; by repeat split|].
  assert (ready w2 s = Some OPEN) as Hr2.
  { unfold ready. rewrite Hs2, lookup_app_l by lia.
    by rewrite list_lookup_alter_eq, Hk1. }
  assert (ready w3 s = Some OPEN /\ ready w3 (S s) = Some OPEN) as [Hr3 Hr3'].
  { unfold ready in *. rewrite Hs3, !lookup_app_l by lia.
    rewrite list_lookup_alter_ne by lia.
    by rewrite list_lookup_alter_eq, Hk2. }
  unfold ready in *. rewrite Hs4.
  rewrite !list_lookup_alter_ne by lia.
  rewrite list_lookup_alter_eq, Hk3.
  repeat split; try done. by rewrite Ht4, Ht3, Ht2.
Qed.

(** ** Futures settle at most once *)

Lemma same_refl w : same_promises w w.
Proof. done. Qed.

Lemma same_trans w1 w2 w3 :
  same_promises w1 w2 -> same_promises w2 w3 -> same_promises w1 w3.
Proof.
  intros (Ha & Hs & Hc) (Ha' & Hs' & Hc'). split; [|split; congruence].
  intros i. by rewrite Ha', Ha.
Qed.

Lemma same_promises_ok w w' :
  same_promises w w' -> promises_ok w -> promises_ok w'.
Proof.
  intros (Ha & Hs & Hc) (H1 & H2 & H3 & H4). unfold promises_ok.
  rewrite Hs, Hc. split; [done|]. split; [done|]. split.
  - intros i a Hi. rewrite Ha in Hi. by apply (H3 i a).
  - intros i j a a'. rewrite !Ha. apply H4.
Qed.

Lemma same_inhand c w w' : same_promises w w' -> inhand c w -> inhand c w'.
Proof.
  intros Hsame (HJ & Hlt & Hns & Hun).
  pose proof (same_promises_ok _ _ Hsame HJ) as HJ'.
  destruct Hsame as (Ha & Hs & Hc). unfold inhand.
  rewrite Hs, Hc. split; [done|]. split; [done|]. split; [done|].
  intros j a Hj. rewrite Ha in Hj. by apply (Hun j a).
Qed.

Lemma same_free c this w w' :
  same_promises w w' -> free c this w -> free c this w'.
Proof.
  intros Hsame (HJ & Hlt & Hns & Hun).
  pose proof (same_promises_ok _ _ Hsame HJ) as HJ'.
  destruct Hsame as (Ha & Hs & Hc). unfold free.
  rewrite Hs, Hc. split; [done|]. split; [done|]. split; [done|].
  intros j a Hj. rewrite Ha in Hj. by apply (Hun j a).
Qed.

Lemma settled_emit e w :
  settled (emit e w) =
    settled w ++ match e with Settled c _ => [c] | _ => [] end.
Proof.
  unfold settled. simpl. rewrite settlements_app, fmap_app.
  by destruct e.
Qed.

Lemma same_emit e w :
  match e with Settled _ _ => False | _ => True end ->
  same_promises w (emit e w).
Proof.
  intros He. split; [done|]. split; [|done].
  rewrite settled_emit. destruct e; try done; by rewrite app_nil_r.
Qed.

Lemma same_emit_all es w :
  Forall ui_effect es -> same_promises w (emit_all es w).
Proof.
  intros Hes. split; [done|]. split; [|done].
  unfold settled. simpl.
  by rewrite settlements_app, (ui_settlements es Hes), app_nil_r.
Qed.

Lemma awaited_update this f w i :
  (forall sv, awaiting (f sv) = awaiting sv) ->
  awaited (update this f w) i = awaited w i.
Proof.
  intros Hf. unfold awaited. simpl.
  destruct (decide (this = i)) as [->|Hne].
  - rewrite list_lookup_alter_eq. destruct (instances w !! i); simpl; auto.
  - by rewrite list_lookup_alter_ne.
Qed.

Lemma same_update this f w :
  (forall sv, awaiting (f sv) = awaiting sv) ->
  same_promises w (update this f w).
Proof. intros Hf. split; [|done]. intros i. by apply awaited_update. Qed.

Lemma awaited_set_ne this x w i :
  i <> this -> awaited (update this (set_awaiting x) w) i = awaited w i.
Proof. intros Hne. unfold awaited. simpl. by rewrite list_lookup_alter_ne. Qed.

Lemma awaited_set_eq this x w :
  awaited (update this (set_awaiting x) w) this
  = instances w !! this ≫= fun _ => x.
Proof.
  unfold awaited. simpl. rewrite list_lookup_alter_eq.
  by destruct (instances w !! this).
Qed.

Lemma same_quiet w w' :
  instances w' = instances w -> out w' = out w -> calls w' = calls w ->
  same_promises w w'.
Proof.
  intros Hi Ho Hc. unfold same_promises, awaited, settled.
  by rewrite Hi, Ho, Hc.
Qed.

(** Steps that touch no future *)
Ltac quiet_step :=
  match goal with
  | |- same_promises ?w ?w => apply same_refl
  | |- same_promises ?w (emit ?e ?w1) =>
      apply (same_trans w w1); [|apply same_emit; exact I]
  | |- same_promises ?w (update ?t ?f ?w1) =>
      apply (same_trans w w1); [|apply same_update; reflexivity]
  | |- same_promises ?w (set_sockets ?l ?w1) =>
      apply (same_trans w w1); [|apply same_quiet; reflexivity]
  | |- same_promises ?w (set_timers ?l ?w1) =>
      apply (same_trans w w1); [|apply same_quiet; reflexivity]
  | |- same_promises ?w (set_websocketService ?o ?w1) =>
      apply (same_trans w w1); [|apply same_quiet; reflexivity]
  end.

Ltac quiet := repeat quiet_step.

Lemma same_scheduleReconnect this w :
  same_promises w (scheduleReconnect this w).
Proof.
  unfold scheduleReconnect, setTimeout. repeat case_match; quiet.
Qed.

Lemma same_release t this w : same_promises w (release t this w).
Proof. unfold release, close. repeat case_match; quiet. Qed.

Lemma same_disconnect this w : same_promises w (disconnect this w).
Proof.
  unfold disconnect.
  eapply same_trans; [|apply same_emit; exact I].
  eapply same_trans; [|apply same_release].
  eapply same_trans; [|apply same_release].
  apply same_release.
Qed.

Lemma same_new_instance w base token user :
  same_promises w
    (set_instances (instances w ++ [new_WebSocketService base token user]) w).
Proof.
  split; [|done]. intros i. unfold awaited. simpl.
  destruct (decide (i < length (instances w))%nat) as [Hlt|Hge].
  - by rewrite lookup_app_l.
  - rewrite lookup_app_r by lia.
    rewrite (lookup_ge_None_2 (instances w)) by lia.
    by destruct (i - length (instances w))%nat as [|[|?]].
Qed.

Lemma same_initializeWebSocket base token user cbs w :
  same_promises w (initializeWebSocket base token user cbs w).
Proof.
  unfold initializeWebSocket, setCallbacks.
  eapply same_trans; [|apply same_update; reflexivity].
  eapply same_trans; [|apply same_quiet; reflexivity].
  eapply same_trans; [|apply same_new_instance].
  case_match; [apply same_disconnect | apply same_refl].
Qed.

Lemma promises_settle c w : inhand c w -> promises_ok (settle c Fulfilled w).
Proof.
  intros ((H1 & H2 & H3 & H4) & Hlt & Hns & Hun). unfold promises_ok, settle.
  rewrite settled_emit. change (awaited (emit _ w)) with (awaited w).
  change (calls (emit _ w)) with (calls w). split; [|split; [|split]].
  - intros c' [Hc|Hc%list_elem_of_singleton]%elem_of_app; [auto|by subst].
  - apply NoDup_app. split; [done|]. split; [|apply NoDup_singleton].
    intros c' Hc ->%list_elem_of_singleton. done.
  - intros i a Ha. split; [by apply (H3 i a)|].
    intros [Hc|Hc%list_elem_of_singleton]%elem_of_app.
    + by apply (H3 i a).
    + by apply (Hun i a).
  - apply H4.
Qed.

Lemma promises_hold c this a w :
  inhand c w -> aw_call a = c ->
  promises_ok (update this (set_awaiting (Some a)) w).
Proof.
  intros ((H1 & H2 & H3 & H4) & Hlt & Hns & Hun) Hc.
  assert (forall i b, awaited (update this (set_awaiting (Some a)) w) i
                      = Some b ->
            (i = this /\ b = a) \/ (i <> this /\ awaited w i = Some b))
    as Hcases.
  { intros i b Hb. destruct (decide (i = this)) as [->|Hne].
    - rewrite awaited_set_eq in Hb. left.
      destruct (instances w !! this); simplify_eq/=. done.
    - rewrite awaited_set_ne in Hb by done. by right. }
  unfold promises_ok.
  change (settled (update this (set_awaiting (Some a)) w)) with (settled w).
  change (calls (update this (set_awaiting (Some a)) w)) with (calls w).
  split; [done|]. split; [done|]. split.
  - intros i b Hb.
    destruct (Hcases _ _ Hb) as [[-> ->]|[_ Hb']];
      [by rewrite Hc|by apply (H3 i b)].
  - intros i j b b' Hi Hj Hbb.
    destruct (Hcases _ _ Hi) as [[-> ->]|[Hne Hb]];
      destruct (Hcases _ _ Hj) as [[-> ->]|[Hne' Hb']]; try done.
    + destruct (Hun j b' Hb'). congruence.
    + destruct (Hun i b Hb). congruence.
    + by apply (H4 i j b b').
Qed.

Lemma clear_inhand c this w :
  free c this w -> inhand c (update this (set_awaiting None) w).
Proof.
  intros ((H1 & H2 & H3 & H4) & Hlt & Hns & Hun).
  assert (forall i b, awaited (update this (set_awaiting None) w) i = Some b ->
                      i <> this /\ awaited w i = Some b) as Hcases.
  { intros i b Hb. destruct (decide (i = this)) as [->|Hne].
    - rewrite awaited_set_eq in Hb.
      destruct (instances w !! this); simplify_eq/=.
    - rewrite awaited_set_ne in Hb by done. done. }
  unfold inhand, promises_ok.
  change (settled (update this (set_awaiting None) w)) with (settled w).
  change (calls (update this (set_awaiting None) w)) with (calls w).
  split; [split; [done|]; split; [done|]; split|].
  - intros i b [_ Hb]%Hcases. by apply (H3 i b).
  - intros i j b b' [_ Hi]%Hcases [_ Hj]%Hcases. by apply (H4 i j b b').
  - split; [done|]. split; [done|].
    intros j b [Hne Hb]%Hcases Hbc. by destruct (Hne (Hun j b Hb Hbc)).
Qed.

Lemma inhand_free c this w : inhand c w -> free c this w.
Proof.
  intros (HJ & Hlt & Hns & Hun). split; [done|]. split; [done|].
  split; [done|]. intros j a Hj Hc. by destruct (Hun j a Hj).
Qed.

Lemma held_free this a w :
  promises_ok w -> awaited w this = Some a -> free (aw_call a) this w.
Proof.
  intros HJ Ha. pose proof HJ as (H1 & H2 & H3 & H4).
  destruct (H3 this a Ha) as [Hlt Hns]. split; [done|]. split; [done|].
  split; [done|]. intros j a' Hj Hc. by apply (H4 j this a' a).
Qed.

Lemma fresh_inhand w :
  promises_ok w -> inhand (calls w) (set_calls (S (calls w)) w).
Proof.
  intros (H1 & H2 & H3 & H4). unfold inhand, promises_ok.
  change (settled (set_calls _ w)) with (settled w).
  change (awaited (set_calls _ w)) with (awaited w). simpl.
  split; [split; [|split; [done|split; [|done]]]|].
  - intros c Hc. specialize (H1 c Hc). lia.
  - intros i a Ha. destruct (H3 i a Ha). split; [lia|done].
  - split; [lia|]. split.
    + intros Hc. specialize (H1 _ Hc). lia.
    + intros j a Hj Hc. destruct (H3 j a Hj). lia.
Qed.

Lemma promises_connect_catch this c w :
  free c this w -> promises_ok (connect_catch this c w).
Proof.
  intros Hfree. unfold connect_catch.
  apply promises_settle.
  eapply same_inhand; [|apply clear_inhand, Hfree].
  eapply same_trans; [|apply same_scheduleReconnect]. quiet.
Qed.

Lemma promises_connectChannel t this c w :
  inhand c w -> promises_ok (connectChannel t this c w).
Proof.
  intros Hin. unfold connectChannel.
  destruct (instances w !! this); [|by destruct Hin].
  case_match.
  - apply (promises_hold c); [|done].
    eapply same_inhand; [|exact Hin]. quiet.
  - by apply promises_connect_catch, inhand_free.
Qed.

Lemma promises_connect_resume this c stage w :
  inhand c w -> promises_ok (connect_resume this c stage w).
Proof.
  intros Hin. unfold connect_resume, connectBots, connectNotifications.
  destruct stage; try by apply promises_connectChannel.
  apply promises_settle. eapply same_inhand; [|exact Hin]. quiet.
Qed.

Lemma promises_connect this w : promises_ok w -> promises_ok (connect this w).
Proof.
  intros HJ. unfold connect, connectWallet.
  destruct (instances w !! this) as [sv|]; [|done].
  pose proof (fresh_inhand w HJ) as Hin.
  destruct (isConnecting sv); [by apply promises_settle|].
  apply promises_connectChannel. eapply same_inhand; [|exact Hin]. quiet.
Qed.

Lemma waiting_on_awaited this s w a :
  waiting_on this s w = Some a -> awaited w this = Some a.
Proof.
  unfold waiting_on, awaited. destruct (instances w !! this); [|done].
  simpl. destruct (awaiting _); [|done]. by case_match.
Qed.

Lemma promises_resolve this s w :
  promises_ok w -> promises_ok (resolve this s w).
Proof.
  intros HJ. unfold resolve.
  destruct (waiting_on this s w) as [a|] eqn:Hw; [|done].
  apply promises_connect_resume, clear_inhand.
  by apply held_free, (waiting_on_awaited this s).
Qed.

Lemma promises_reject this s w :
  promises_ok w -> promises_ok (reject this s w).
Proof.
  intros HJ. unfold reject.
  destruct (waiting_on this s w) as [a|] eqn:Hw; [|done].
  apply promises_connect_catch.
  by apply held_free, (waiting_on_awaited this s).
Qed.

Lemma promises_step w e : promises_ok w -> promises_ok (step w e).
Proof.
  intros HJ. destruct e; simpl.
  - eapply same_promises_ok; [apply same_initializeWebSocket|done].
  - unfold disconnectWebSocket. case_match; [|done].
    eapply same_promises_ok; [|exact HJ].
    quiet. apply same_disconnect.
  - eapply same_promises_ok; [|exact HJ]. unfold setCallbacks. quiet.
  - by apply promises_connect.
  - eapply same_promises_ok; [apply same_disconnect|done].
  - eapply same_promises_ok; [|exact HJ].
    unfold sendMessage. repeat case_match; quiet.
  - repeat case_match; try done. unfold onopen. case_match; [|done].
    apply promises_resolve. eapply same_promises_ok; [|exact HJ]. quiet.
  - repeat case_match; try done; unfold onerror; (case_match; [|done]);
      apply promises_reject; (eapply same_promises_ok; [|exact HJ]); quiet.
  - eapply same_promises_ok; [|exact HJ].
    repeat case_match; try apply same_refl;
      unfold onclose, call_onDisconnect;
      repeat case_match; try apply same_refl;
      (eapply same_trans; [|apply same_scheduleReconnect]) || idtac; quiet.
  - eapply same_promises_ok; [|exact HJ].
    repeat case_match; try apply same_refl.
    unfold onmessage. repeat case_match; try apply same_refl.
    apply same_emit_all, ui_handleMessage.
  - repeat case_match; try done.
    apply promises_connect. eapply same_promises_ok; [|exact HJ]. quiet.
Qed.

Lemma promises_initial : promises_ok initial.
Proof.
  unfold promises_ok, settled, awaited. simpl.
  split; [|split; [apply NoDup_nil_2|split; done]].
  intros c Hc. by apply elem_of_nil in Hc.
Qed.

Lemma promises_run es : forall w, promises_ok w -> promises_ok (run es w).
Proof.
  induction es as [|e es IH]; intros w Hw; [done|].
  simpl. apply IH. by apply promises_step.
Qed.

(** ** The future returned by [connect()] *)

Lemma never_rejected_step w e call :
  Settled call Rejected ∈ out (step w e) -> Settled call Rejected ∈ out w.
Proof.
  destruct (step_extends w e) as (es & -> & Hall).
  rewrite elem_of_app. intros [H|H]; [done|].
  rewrite Forall_forall in Hall. by specialize (Hall _ H).
Qed.

(** C2, as the code has it: the future returned by [connect()] is never
    rejected.  (1) No turn of the event loop rejects a promise, and along
    every run from the initial state no future settles twice.  (2) A
    [connect()] called while another one is in flight is fulfilled at once
    and does nothing else.  (3) When the three sockets open one after the
    other, the future is fulfilled once, at the third [open] and not
    before, with the counter reset and the flag cleared.  (4) When the
    [open] of the awaited socket fails, the error is caught: the flag is
    cleared, [scheduleReconnect] is run for the whole group (a timer while
    the counter is below the cap, the notification at the cap), and then
    the future is fulfilled all the same.  (5) So it is when the
    constructor of a socket throws, at any of the three stages: control
    reaches the same [catch] block. *)
Theorem connect_future_is_never_rejected w :
  ((forall e call,
      Settled call Rejected ∈ out (step w e) ->
      Settled call Rejected ∈ out w)
   /\ (forall es, NoDup (settled (run es initial))))
  /\ (forall this sv,
        instances w !! this = Some sv -> isConnecting sv = true ->
        connect this w = settle (calls w) Fulfilled (set_calls (S (calls w)) w))
  /\ (forall this sv,
        instances w !! this = Some sv ->
        isConnecting sv = false ->
        (forall t, url_accepted (wsUrl sv t) = true) ->
        let s := length (sockets w) in
        let mid := run [Connect this; SocketOpened s; SocketOpened (S s)] w in
        let w' := step mid (SocketOpened (S (S s))) in
        settlements (out mid) = settlements (out w)
        /\ settlements (out w') = settlements (out w) ++ [(calls w, Fulfilled)]
        /\ (reconnectAttempts <$> instances w' !! this) = Some 0
        /\ (isConnecting <$> instances w' !! this) = Some false
        /\ ready w' s = Some OPEN /\ ready w' (S s) = Some OPEN
        /\ ready w' (S (S s)) = Some OPEN)
  /\ (forall s sk sv a,
        sockets w !! s = Some sk ->
        readyState sk <> CLOSED ->
        instances w !! ws_owner sk = Some sv ->
        awaiting sv = Some a ->
        aw_socket a = s ->
        let w' := step w (SocketFailed s) in
        w' = (w |> emit (Console LError (SocketError (ws_topic sk)))
                |> update (ws_owner sk) (set_awaiting None)
                |> emit (Console LError ErrorConnecting)
                |> update (ws_owner sk) (set_isConnecting false)
                |> scheduleReconnect (ws_owner sk)
                |> settle (aw_call a) Fulfilled)
        /\ settlements (out w')
           = settlements (out w) ++ [(aw_call a, Fulfilled)]
        /\ (isConnecting <$> instances w' !! ws_owner sk) = Some false
        /\ (reconnectAttempts sv < maxReconnectAttempts sv ->
            timers w' =
              timers w ++ [(ws_owner sk,
                            reconnectDelay sv * 2 ^ reconnectAttempts sv)])
        /\ (maxReconnectAttempts sv <= reconnectAttempts sv ->
            timers w' = timers w))
  /\ (forall t this call sv,
        instances w !! this = Some sv ->
        url_accepted (wsUrl sv t) = false ->
        let w' := connectChannel t this call w in
        w' = connect_catch this call w
        /\ settlements (out w') = settlements (out w) ++ [(call, Fulfilled)]
        /\ (isConnecting <$> instances w' !! this) = Some false
        /\ sockets w' = sockets w).
Proof.
  split; [split; [apply never_rejected_step|]|]; [|split; [|split; [|split]]].
  - intros es.
    by destruct (promises_run es initial promises_initial) as (_ & H & _).
  - intros this sv Hsv Hbusy. unfold connect. by rewrite Hsv, Hbusy.
  - intros this sv Hsv Hidle Hurl s mid w'.
    destruct (connect_succeeds this w sv Hsv Hidle Hurl)
      as (Hmid & Hout & (sv' & Hsv' & Hn & Hc & _) & Hr1 & Hr2 & Hr3 & _).
    fold s in Hmid, Hout, Hsv', Hr1, Hr2, Hr3. fold mid in Hmid, Hout.
    fold mid in Hsv', Hr1, Hr2, Hr3. fold w' in Hout, Hsv', Hr1, Hr2, Hr3.
    rewrite Hout, !settlements_app, Hmid, settlements_app. simpl.
    rewrite app_nil_r, Hsv'. simpl. rewrite Hn, Hc. done.
  - intros s sk sv a Hs Hr Hsv Ha Hsock w'. subst w'.
    rewrite (step_failed_awaited w s sk sv a Hs Hr Hsv Ha Hsock).
    split; [done|].
    set (w1 := emit (Console LError (SocketError (ws_topic sk))) w).
    assert (instances w1 !! ws_owner sk = Some sv) as Hsv1 by done.
    destruct (connect_catch_spec (ws_owner sk) (aw_call a) w1 sv Hsv1)
      as (Hlt & Hge & _).
    destruct (Z.lt_ge_cases (reconnectAttempts sv) (maxReconnectAttempts sv))
      as [H|H].
    + destruct (Hlt H) as (Hi & Ht & Ho).
      rewrite Hi, Ht, Ho. unfold w1. simpl.
      rewrite !settlements_app. simpl. rewrite app_nil_r.
      replace (reconnectAttempts sv + 1 - 1) with (reconnectAttempts sv)
        by lia.
      repeat split; try done. lia.
    + destruct (Hge H) as (Hi & Ht & Ho).
      rewrite Hi, Ht, Ho. unfold w1. simpl.
      rewrite !settlements_app. simpl. rewrite app_nil_r.
      repeat split; try done. lia.
  - intros t this call sv Hsv Hurl w'. subst w'.
    unfold connectChannel. rewrite Hsv, Hurl. split; [done|].
    destruct (connect_catch_spec this call w sv Hsv)
      as (Hlt & Hge & Hso & _).
    rewrite Hso.
    destruct (Z.lt_ge_cases (reconnectAttempts sv) (maxReconnectAttempts sv))
      as [H|H].
    + destruct (Hlt H) as (Hi & Ht & Ho). rewrite Hi, Ho.
      by rewrite !settlements_app.
    + destruct (Hge H) as (Hi & Ht & Ho). rewrite Hi, Ho.
      by rewrite !settlements_app.
Qed.

(** ** Failures at the cap *)

Lemma step_closed w s sk :
  sockets w !! s = Some sk ->
  readyState sk <> CLOSED ->
  step w (SocketClosed s) =
    let w1 := w |> set_sockets (alter (set_readyState CLOSED) s (sockets w))
                |> emit (Console LLog (SocketDisconnected (ws_topic sk))) in
    match ws_topic sk with
    | wallet =>
        call_onDisconnect (ws_owner sk) (scheduleReconnect (ws_owner sk)) w1
    | _ => scheduleReconnect (ws_owner sk) w1
    end.
Proof.
  intros Hs Hr. simpl. unfold ready. rewrite Hs. simpl.
  assert (onclose s
            (set_sockets (alter (set_readyState CLOSED) s (sockets w)) w)
          = match ws_topic sk with
            | wallet =>
                call_onDisconnect (ws_owner sk)
                  (scheduleReconnect (ws_owner sk))
                  (w |> set_sockets
                          (alter (set_readyState CLOSED) s (sockets w))
                     |> emit (Console LLog (SocketDisconnected (ws_topic sk))))
            | _ =>
                scheduleReconnect (ws_owner sk)
                  (w |> set_sockets
                          (alter (set_readyState CLOSED) s (sockets w))
                     |> emit (Console LLog (SocketDisconnected (ws_topic sk))))
            end) as Heq.
  { unfold onclose. simpl. rewrite list_lookup_alter_eq, Hs. simpl.
    by destruct (ws_topic sk). }
  by destruct (readyState sk).
Qed.

(** The [close] handler, when a throwing [onDisconnect] does not cut it
    short, is the log line, the callback if any, and [scheduleReconnect]. *)
Lemma step_closed_reconnects w s sk sv :
  sockets w !! s = Some sk ->
  readyState sk <> CLOSED ->
  instances w !! ws_owner sk = Some sv ->
  (ws_topic sk = wallet -> cb_onDisconnect (callbacks sv) <> Some Abrupt) ->
  exists w1,
    step w (SocketClosed s) = scheduleReconnect (ws_owner sk) w1
    /\ instances w1 = instances w /\ timers w1 = timers w
    /\ count is_connection_lost (out w1) = count is_connection_lost (out w).
Proof.
  intros Hs Hr Hsv Hcb. rewrite (step_closed w s sk Hs Hr). cbv zeta.
  set (w1 := w |> set_sockets (alter (set_readyState CLOSED) s (sockets w))
               |> emit (Console LLog (SocketDisconnected (ws_topic sk)))).
  assert (count is_connection_lost (out w1)
          = count is_connection_lost (out w)) as Hc1.
  { unfold w1. simpl. rewrite count_app. simpl. lia. }
  destruct (ws_topic sk) eqn:Ht; try by (exists w1).
  unfold call_onDisconnect.
  change (instances w1) with (instances w). rewrite Hsv.
  destruct (cb_onDisconnect (callbacks sv)) as [[[]|]|]; [| |by exists w1].
  - exists (emit (Invoke onDisconnect None) w1). repeat split.
    simpl. rewrite count_app. simpl. unfold w1 in Hc1. simpl in Hc1. lia.
  - by destruct Hcb.
Qed.

(** C3, as the code has it: while the counter stands at the cap, every
    failure schedules nothing, leaves the counter where it is, and shows
    the "connection lost" notification again, once per failure: [k] calls
    of [scheduleReconnect] show it [k] times, and so does each [close] of a
    socket and each failed [open] of an awaited socket. *)
Theorem at_the_cap_every_failure_notifies this w sv :
  instances w !! this = Some sv ->
  maxReconnectAttempts sv <= reconnectAttempts sv ->
  (forall k : nat,
     let w' := Nat.iter k (scheduleReconnect this) w in
     timers w' = timers w /\ instances w' = instances w
     /\ count is_connection_lost (out w')
        = (count is_connection_lost (out w) + k)%nat)
  /\ (forall s sk,
        sockets w !! s = Some sk ->
        ws_owner sk = this ->
        readyState sk <> CLOSED ->
        (ws_topic sk = wallet ->
         cb_onDisconnect (callbacks sv) <> Some Abrupt) ->
        let w' := step w (SocketClosed s) in
        timers w' = timers w /\ instances w' = instances w
        /\ count is_connection_lost (out w')
           = S (count is_connection_lost (out w)))
  /\ (forall s sk a,
        sockets w !! s = Some sk ->
        ws_owner sk = this ->
        readyState sk <> CLOSED ->
        awaiting sv = Some a ->
        aw_socket a = s ->
        let w' := step w (SocketFailed s) in
        timers w' = timers w
        /\ (reconnectAttempts <$> instances w' !! this)
           = Some (reconnectAttempts sv)
        /\ count is_connection_lost (out w')
           = S (count is_connection_lost (out w))).
Proof.
  intros Hsv Hcap. split; [|split].
  - induction k as [|k IH]; [simpl; repeat split; lia|].
    cbv zeta in *. rewrite Nat.iter_succ.
    destruct IH as (Ht & Hi & Hc).
    rewrite (scheduleReconnect_at_cap this _ sv) by (by rewrite ?Hi).
    simpl. rewrite Ht, Hi. repeat split.
    rewrite <- app_assoc, count_app, Hc. simpl. lia.
  - intros s sk Hs <- Hr Hcb w'. subst w'.
    destruct (step_closed_reconnects w s sk sv Hs Hr Hsv Hcb)
      as (w1 & -> & Hi & Ht & Hc).
    rewrite (scheduleReconnect_at_cap _ w1 sv) by (by rewrite ?Hi).
    simpl. rewrite Ht, Hi. repeat split.
    rewrite <- app_assoc, count_app, Hc. simpl. lia.
  - intros s sk a Hs <- Hr Ha Hsock w'. subst w'.
    rewrite (step_failed_awaited w s sk sv a Hs Hr Hsv Ha Hsock).
    set (w1 := emit (Console LError (SocketError (ws_topic sk))) w).
    assert (instances w1 !! ws_owner sk = Some sv) as Hsv1 by done.
    destruct (connect_catch_spec (ws_owner sk) (aw_call a) w1 sv Hsv1)
      as (_ & Hge & _).
    destruct (Hge Hcap) as (Hi & Ht & Ho). rewrite Hi, Ht, Ho.
    unfold w1. simpl. repeat split.
    rewrite !count_app. simpl. lia.
Qed.

(** ** How the counter moves *)

Lemma scheduleReconnect_counter this w sv :
  instances w !! this = Some sv ->
  reconnectAttempts sv <= maxReconnectAttempts sv ->
  exists sv',
    instances (scheduleReconnect this w) !! this = Some sv'
    /\ reconnectAttempts sv'
       = Z.min (reconnectAttempts sv + 1) (maxReconnectAttempts sv)
    /\ maxReconnectAttempts sv' = maxReconnectAttempts sv.
Proof.
  intros Hsv Hle.
  destruct (Z.lt_ge_cases (reconnectAttempts sv) (maxReconnectAttempts sv))
    as [H|H].
  - rewrite (scheduleReconnect_below this w sv Hsv H). simpl.
    rewrite list_lookup_alter_eq, Hsv. simpl. eexists. split; [done|].
    simpl. split; [lia|done].
  - rewrite (scheduleReconnect_at_cap this w sv Hsv H). simpl.
    exists sv. repeat split; [done|lia].
Qed.

Lemma connectChannel_counter t this call w sv :
  instances w !! this = Some sv ->
  exists sv',
    instances (connectChannel t this call w) !! this = Some sv'
    /\ reconnectAttempts sv <= reconnectAttempts sv'.
Proof.
  intros Hsv. destruct (url_accepted (wsUrl sv t)) eqn:Hurl.
  - destruct (connectChannel_accepted t this call w sv Hsv Hurl) as [-> _].
    eexists. split; [done|]. simpl. lia.
  - unfold connectChannel. rewrite Hsv, Hurl.
    destruct (connect_catch_spec this call w sv Hsv) as (Hlt & Hge & _).
    destruct (Z.lt_ge_cases (reconnectAttempts sv) (maxReconnectAttempts sv))
      as [H|H].
    + destruct (Hlt H) as [-> _]. eexists. split; [done|]. simpl. lia.
    + destruct (Hge H) as [-> _]. eexists. split; [done|]. simpl. lia.
Qed.

(** *** One turn of the event loop *)

Lemma classic_opened (e : Event) :
  (exists s, e = SocketOpened s) \/ (forall s, e <> SocketOpened s).
Proof. destruct e; try (by right); left; by eexists. Qed.

Create HintDb counters.

Lemma moves_refl b w : counter_moves b w w.
Proof. intros i sv Hi. exists sv. auto. Qed.

Lemma moves_weaken w0 w : counter_moves false w0 w -> counter_moves true w0 w.
Proof.
  intros H i sv Hi. destruct (H i sv Hi) as (sv' & Hi' & Hmax & [Hc|[? _]]);
    [|done].
  exists sv'. auto.
Qed.

Lemma moves_quiet b w0 w w' :
  instances w' = instances w -> counter_moves b w0 w -> counter_moves b w0 w'.
Proof. unfold counter_moves. by intros ->. Qed.

Lemma moves_update b w0 this f w :
  (forall sv, reconnectAttempts (f sv) = reconnectAttempts sv
              /\ maxReconnectAttempts (f sv) = maxReconnectAttempts sv) ->
  counter_moves b w0 w -> counter_moves b w0 (update this f w).
Proof.
  intros Hf H i sv Hi. destruct (H i sv Hi) as (sv1 & Hi1 & Hmax & Hc).
  destruct (decide (i = this)) as [->|Hne].
  - exists (f sv1). simpl. rewrite list_lookup_alter_eq, Hi1.
    destruct (Hf sv1) as [-> ->]. done.
  - exists sv1. simpl. by rewrite list_lookup_alter_ne.
Qed.

Lemma moves_emit b w0 e w : counter_moves b w0 w -> counter_moves b w0 (emit e w).
Proof. by apply moves_quiet. Qed.

Lemma moves_emit_all b w0 es w :
  counter_moves b w0 w -> counter_moves b w0 (emit_all es w).
Proof. by apply moves_quiet. Qed.

Lemma moves_settle b w0 call o w :
  counter_moves b w0 w -> counter_moves b w0 (settle call o w).
Proof. by apply moves_quiet. Qed.

Lemma moves_set_calls b w0 n w :
  counter_moves b w0 w -> counter_moves b w0 (set_calls n w).
Proof. by apply moves_quiet. Qed.

Lemma moves_set_timers b w0 l w :
  counter_moves b w0 w -> counter_moves b w0 (set_timers l w).
Proof. by apply moves_quiet. Qed.

Lemma moves_set_sockets b w0 l w :
  counter_moves b w0 w -> counter_moves b w0 (set_sockets l w).
Proof. by apply moves_quiet. Qed.

Lemma moves_set_websocketService b w0 o w :
  counter_moves b w0 w -> counter_moves b w0 (set_websocketService o w).
Proof. by apply moves_quiet. Qed.

Lemma moves_setTimeout b w0 this delay w :
  counter_moves b w0 w -> counter_moves b w0 (setTimeout this delay w).
Proof. by apply moves_quiet. Qed.

Lemma moves_close b w0 s w :
  counter_moves b w0 w -> counter_moves b w0 (close s w).
Proof. by apply moves_quiet. Qed.

Lemma moves_set_socket b w0 this t o w :
  counter_moves b w0 w -> counter_moves b w0 (update this (set_socket t o) w).
Proof. by apply moves_update. Qed.

Lemma moves_set_awaiting b w0 this a w :
  counter_moves b w0 w -> counter_moves b w0 (update this (set_awaiting a) w).
Proof. by apply moves_update. Qed.

Lemma moves_set_isConnecting b w0 this c w :
  counter_moves b w0 w ->
  counter_moves b w0 (update this (set_isConnecting c) w).
Proof. by apply moves_update. Qed.

Lemma moves_set_callbacks b w0 this cbs w :
  counter_moves b w0 w ->
  counter_moves b w0 (update this (set_callbacks cbs) w).
Proof. by apply moves_update. Qed.

#[local] Hint Resolve moves_refl moves_emit moves_emit_all moves_settle
  moves_set_calls moves_set_timers moves_set_sockets
  moves_set_websocketService moves_setTimeout moves_close moves_set_socket
  moves_set_awaiting moves_set_isConnecting moves_set_callbacks : counters.

(** The one place where the counter goes up: by one, from below the cap. *)
Lemma moves_scheduleReconnect w0 this w :
  counter_moves false w0 w -> counter_moves true w0 (scheduleReconnect this w).
Proof.
  intros H. unfold scheduleReconnect.
  destruct (instances w !! this) as [sv|] eqn:Hsv; [|by apply moves_weaken].
  destruct (Z.ltb_spec (reconnectAttempts sv) (maxReconnectAttempts sv))
    as [Hlt|Hge]; [|apply moves_weaken; auto with counters].
  intros i sv0 Hi. destruct (H i sv0 Hi) as (sv1 & Hi1 & Hmax & [Hc|[? _]]);
    [|done].
  destruct (decide (i = this)) as [->|Hne].
  - assert (sv1 = sv) as -> by congruence.
    exists (set_reconnectAttempts (reconnectAttempts sv + 1) sv). simpl.
    rewrite list_lookup_alter_eq, Hsv. split; [done|]. split; [done|].
    right. split; [done|]. split; [by rewrite Hc|]. by rewrite <- Hc, <- Hmax.
  - exists sv1. simpl. rewrite list_lookup_alter_ne by done. auto.
Qed.

Lemma moves_connect_catch w0 this call w :
  counter_moves false w0 w ->
  counter_moves true w0 (connect_catch this call w).
Proof.
  intros. unfold connect_catch.
  apply moves_settle, moves_scheduleReconnect. auto with counters.
Qed.

Lemma moves_connectChannel w0 t this call w :
  counter_moves false w0 w ->
  counter_moves true w0 (connectChannel t this call w).
Proof.
  intros. unfold connectChannel. repeat case_match;
    try (by apply moves_connect_catch); apply moves_weaken;
    auto with counters.
Qed.

Lemma moves_connect w0 this w :
  counter_moves false w0 w -> counter_moves true w0 (connect this w).
Proof.
  intros. unfold connect, connectWallet. repeat case_match;
    try (apply moves_connectChannel; auto with counters);
    apply moves_weaken; auto with counters.
Qed.

Lemma moves_release b w0 t this w :
  counter_moves b w0 w -> counter_moves b w0 (release t this w).
Proof. intros. unfold release. repeat case_match; auto with counters. Qed.

Lemma moves_disconnect b w0 this w :
  counter_moves b w0 w -> counter_moves b w0 (disconnect this w).
Proof.
  intros. unfold disconnect.
  by apply moves_emit, moves_release, moves_release, moves_release.
Qed.

Lemma moves_initializeWebSocket b w0 base token user cbs w :
  counter_moves b w0 w ->
  counter_moves b w0 (initializeWebSocket base token user cbs w).
Proof.
  intros H. unfold initializeWebSocket, setCallbacks.
  set (w1 := match websocketService w with
             | Some old => disconnect old w
             | None => w
             end).
  assert (counter_moves b w0 w1) as H1.
  { unfold w1. case_match; [by apply moves_disconnect|done]. }
  cbv zeta. apply moves_set_callbacks, moves_set_websocketService.
  intros i sv Hi. destruct (H1 i sv Hi) as (sv' & Hi' & Hrest).
  exists sv'. split; [|done]. simpl. by apply lookup_app_l_Some.
Qed.

(** A turn other than the opening of a socket keeps every counter or
    adds one to it. *)
Lemma moves_step w e :
  (forall s, e <> SocketOpened s) -> counter_moves true w (step w e).
Proof.
  intros He. pose proof (moves_refl false w) as H0. destruct e; simpl.
  - by apply moves_weaken, moves_initializeWebSocket.
  - apply moves_weaken. unfold disconnectWebSocket.
    case_match; [|done]. by apply moves_set_websocketService, moves_disconnect.
  - apply moves_weaken. unfold setCallbacks. auto with counters.
  - by apply moves_connect.
  - by apply moves_weaken, moves_disconnect.
  - apply moves_weaken. unfold sendMessage.
    repeat case_match; auto with counters.
  - by destruct (He s).
  - assert (counter_moves true w (onerror s w)).
    { unfold onerror. case_match; [|by apply moves_weaken].
      unfold reject. case_match.
      - apply moves_connect_catch. auto with counters.
      - apply moves_weaken. auto with counters. }
    destruct (ready w s) as [[]|]; auto using moves_weaken.
  - assert (counter_moves true w
              (onclose s (set_sockets
                            (alter (set_readyState CLOSED) s (sockets w)) w))).
    { unfold onclose, call_onDisconnect.
      repeat case_match;
        try (apply moves_scheduleReconnect; auto with counters);
        apply moves_weaken; auto with counters. }
    destruct (ready w s) as [[]|]; auto using moves_weaken.
  - apply moves_weaken. destruct (ready w s) as [[]|]; auto.
    unfold onmessage. repeat case_match; auto with counters.
  - destruct (timers w !! k) as [[this d]|]; [|by apply moves_weaken].
    apply moves_connect. auto with counters.
Qed.

(** One turn of the event loop, seen from an instance: its counter stays,
    goes up by one from below the cap, or is set to zero, and the last
    happens in one place only, at the [open] of the notifications socket
    that a [connect()] of this instance is waiting for. *)
Lemma counter_step w e i sv :
  instances w !! i = Some sv ->
  exists sv',
    instances (step w e) !! i = Some sv'
    /\ maxReconnectAttempts sv' = maxReconnectAttempts sv
    /\ (reconnectAttempts sv' = reconnectAttempts sv
        \/ (reconnectAttempts sv' = reconnectAttempts sv + 1
            /\ reconnectAttempts sv < maxReconnectAttempts sv)
        \/ (reconnectAttempts sv' = 0
            /\ exists s sk call,
                 e = SocketOpened s
                 /\ sockets w !! s = Some sk
                 /\ readyState sk = CONNECTING
                 /\ ws_owner sk = i
                 /\ awaiting sv
                    = Some {| aw_call := call; aw_stage := notifications;
                              aw_socket := s |})).
Proof.
  intros Hi.
  assert (forall w', counter_moves true w w' ->
            exists sv',
              instances w' !! i = Some sv'
              /\ maxReconnectAttempts sv' = maxReconnectAttempts sv
              /\ (reconnectAttempts sv' = reconnectAttempts sv
                  \/ (reconnectAttempts sv' = reconnectAttempts sv + 1
                      /\ reconnectAttempts sv < maxReconnectAttempts sv)
                  \/ (reconnectAttempts sv' = 0
                      /\ exists s sk call,
                           e = SocketOpened s
                           /\ sockets w !! s = Some sk
                           /\ readyState sk = CONNECTING
                           /\ ws_owner sk = i
                           /\ awaiting sv
                              = Some {| aw_call := call;
                                        aw_stage := notifications;
                                        aw_socket := s |}))) as Hmoves.
  { intros w' H. destruct (H i sv Hi) as (sv' & Hi' & Hmax & Hc).
    exists sv'. split; [done|]. split; [done|].
    destruct Hc as [Hc|(_ & Hc & Hlt)]; auto. }
  destruct (classic_opened e) as [[s ->]|He]; [|by apply Hmoves, moves_step].
  destruct (sockets w !! s) as [sk|] eqn:Hs;
    [|apply Hmoves, moves_weaken; simpl; unfold ready; rewrite Hs;
      apply moves_refl].
  destruct (decide (readyState sk = CONNECTING)) as [Hr|Hr];
    [|apply Hmoves, moves_weaken; simpl; unfold ready; rewrite Hs; simpl;
      destruct (readyState sk); try done; apply moves_refl].
  destruct (waiting_on (ws_owner sk) s w) as [a|] eqn:Hw.
  - unfold waiting_on in Hw.
    destruct (instances w !! ws_owner sk) as [svo|] eqn:Hsvo; [|done].
    destruct (awaiting svo) as [a'|] eqn:Ha; [|done].
    destruct (Nat.eqb_spec (aw_socket a') s) as [Hsock|]; [|done].
    simplify_eq.
    rewrite (step_opened_awaited w _ sk svo a Hs Hr Hsvo Ha eq_refl).
    destruct (aw_stage a) eqn:Hstage;
      try (apply Hmoves; unfold connect_resume, connectBots,
             connectNotifications;
           apply moves_connectChannel; auto with counters).
    simpl. destruct (decide (i = ws_owner sk)) as [->|Hne].
    + assert (sv = svo) as -> by congruence.
      rewrite !list_lookup_alter_eq, Hsvo. simpl. eexists.
      split; [done|]. split; [done|]. right. right. split; [done|].
      exists (aw_socket a), sk, (aw_call a). repeat split; try done.
      rewrite Ha. by destruct a; simplify_eq/=.
    + rewrite !list_lookup_alter_ne by done. exists sv. auto.
  - apply Hmoves, moves_weaken.
    rewrite (step_opened_unawaited w s sk Hs Hr Hw). auto with counters.
Qed.


End Properties.

(** * Worked examples *)

Module Examples.

Import Scenario.

#[local] Existing Instance EnUS.host.

(** ** Instances of the theorems *)

Lemma fresh_lookup : instances fresh !! 0%nat = Some fresh_service.
Proof. vm_compute. reflexivity. Qed.

Lemma fresh_urls t : url_accepted (wsUrl fresh_service t) = true.
Proof. destruct t; vm_compute; reflexivity. Qed.

Lemma reconnect_delay_sequence_witness :
  timers (Nat.iter 7 (scheduleReconnect 0) fresh)
  = [(0%nat, 1000); (0%nat, 2000); (0%nat, 4000); (0%nat, 8000);
     (0%nat, 16000)].
Proof.
  destruct (reconnect_delay_sequence 0 fresh fresh_service fresh_lookup
              eq_refl) as (_ & _ & H).
  rewrite (H eq_refl 7%nat). vm_compute. reflexivity.
Defined.

Lemma connect_future_is_never_rejected_witness :
  settlements
    (out (step (run [Connect 0; SocketOpened 0; SocketOpened 1] fresh)
               (SocketOpened 2)))
  = [(0%nat, Fulfilled)].
Proof.
  destruct (connect_future_is_never_rejected fresh) as (_ & _ & H & _).
  destruct (H 0%nat fresh_service fresh_lookup eq_refl fresh_urls)
    as (_ & H2 & _).
  change (length (sockets fresh)) with 0%nat in H2.
  rewrite H2. vm_compute. reflexivity.
Defined.

Lemma at_the_cap_every_failure_notifies_witness :
  count is_connection_lost
    (out (Nat.iter 3 (scheduleReconnect 0) (run server_down initial)))
  = 3%nat.
Proof.
  assert (exists sv,
            instances (run server_down initial) !! 0%nat = Some sv
            /\ maxReconnectAttempts sv <= reconnectAttempts sv)
    as (sv & Hsv & Hcap).
  { exists (service_at (run server_down initial) 0). split.
    - vm_compute. reflexivity.
    - vm_compute. discriminate. }
  destruct (at_the_cap_every_failure_notifies 0 (run server_down initial)
              sv Hsv Hcap) as (H & _).
  destruct (H 3%nat) as (_ & _ & Hc).
  rewrite Hc. vm_compute. reflexivity.
Defined.


Lemma unknown_type_is_logged_and_dropped_witness :
  handleMessage all_callbacks (Parsed unknown_envelope) wallet
  = [Console LLog (MessageFrom wallet unknown_envelope);
     Console LLog (UnknownMessageType (Some (JStr "price_tick")))].
Proof.
  destruct (unknown_type_is_logged_and_dropped all_callbacks wallet)
    as (H & _).
  destruct (H unknown_envelope (Some (JStr "price_tick")) eq_refl eq_refl)
    as (_ & Hall).
  exact Hall.
Defined.

Lemma transaction_toast_polarity_witness :
  toasts (handleMessage all_callbacks (Parsed receipt) wallet)
  = [Toast ToastSuccess (JStr "Received KES 1,500") (Some 4000)
       (Some MoneyBag)].
Proof.
  destruct (transaction_toast_polarity all_callbacks wallet receipt _ _
              eq_refl eq_refl eq_refl eq_refl)
    as ((category & amount & Hc & Ha & H) & _).
  vm_compute in Hc. vm_compute in Ha.
  injection Hc as <-. injection Ha as <-.
  rewrite H. vm_compute. reflexivity.
Defined.

Lemma send_when_not_open_is_dropped_witness :
  out (sendMessage 0 (Serializable (JObj [("type", JStr "ping")])) wallet
         wallet_down)
  = out wallet_down ++ [Console LWarn (NotConnected wallet)].
Proof.
  assert (exists sv,
            instances wallet_down !! 0%nat = Some sv
            /\ match socket_of wallet sv with
               | Some s => is_open wallet_down s = false
               | None => True
               end) as (sv & Hsv & Hclosed).
  { exists (service_at wallet_down 0). split; vm_compute; reflexivity. }
  destruct (send_when_not_open_is_dropped 0 wallet_down sv
              (Serializable (JObj [("type", JStr "ping")])) wallet
              Hsv Hclosed) as (_ & _ & _ & _ & _ & H).
  exact H.
Defined.

Lemma pending_reconnect_survives_disconnect_witness :
  timers (disconnect 0 retrying) = timers retrying
  /\ ready (step (disconnect 0 retrying) (TimerFired 0))
           (length (sockets retrying))
     = Some CONNECTING.
Proof.
  destruct (pending_reconnect_survives_disconnect 0 retrying) as (Ht & H).
  split; [exact Ht|].
  assert (timers retrying !! 0%nat = Some (0%nat, 1000)) as Hk
    by (vm_compute; reflexivity).
  destruct (H 0%nat 1000 Hk) as (_ & H').
  assert (exists sv,
            instances retrying !! 0%nat = Some sv
            /\ isConnecting sv = false
            /\ url_accepted (wsUrl sv wallet) = true)
    as (sv & Hsv & Hidle & Hurl).
  { exists (service_at retrying 0).
    split; [|split]; vm_compute; reflexivity. }
  destruct (H' sv Hsv Hidle Hurl) as (_ & _ & Hr).
  exact Hr.
Defined.

Lemma onDisconnect_only_on_wallet_close_witness :
  count is_onDisconnect (out (step connected (SocketClosed 1)))
  = count is_onDisconnect (out connected).
Proof.
  destruct (onDisconnect_only_on_wallet_close connected) as (_ & H & _).
  assert (exists sk,
            sockets connected !! 1%nat = Some sk
            /\ readyState sk <> CLOSED /\ ws_topic sk <> wallet)
    as (sk & Hs & Hr & Ht).
  { exists (socket_at connected 1). split; [vm_compute; reflexivity|].
    split; vm_compute; discriminate. }
  destruct (H 1%nat sk Hs Hr Ht) as (_ & Hc).
  exact Hc.
Defined.

(** ** Where the code departs from the specification *)

(** C2: the open of the wallet socket fails, and the future returned by
    that [connect()] call, call number 0, is fulfilled, not rejected; the
    trace holds no other settlement.  And when the open fails with the
    counter at the cap, no reconnect is scheduled (the future is fulfilled
    there too). *)
Lemma failed_open_fulfils_the_future :
  let w := run [start; Connect 0; SocketFailed 0] initial in
  let at_cap := run (server_down ++ [SocketClosed 2; TimerFired 0]) initial in
  (settlements (out w) = [(0%nat, Fulfilled)]
   /\ existsb (fun x => match x with
                        | Settled _ Rejected => true
                        | _ => false
                        end) (out w) = false)
  /\ (timers (step at_cap (SocketFailed 3)) = timers at_cap
      /\ last (settlements (out (step at_cap (SocketFailed 3))))
         = Some (3%nat, Fulfilled)).
Proof. vm_compute. auto. Qed.

(** C3: with the server down, the notification is shown a first time when
    the third socket closes at the cap and a second time when the next
    [connect()] fails.  Nor is the stop permanent: when the server is back,
    a reconnect that was pending when the cap was reached succeeds and
    resets the counter, and the next close schedules a reconnect again. *)
Lemma connection_lost_is_shown_twice :
  let w := run (server_down ++ [SocketClosed 2; TimerFired 0; SocketFailed 3])
               initial in
  let back := run (server_down ++ [TimerFired 0; SocketOpened 3;
                                   SocketOpened 4; SocketOpened 5]) initial in
  ((reconnectAttempts <$> instances w !! 0%nat) = Some 5
   /\ count is_connection_lost (out w) = 2%nat)
  /\ ((reconnectAttempts <$> instances (run server_down initial) !! 0%nat)
        = Some 5
      /\ (reconnectAttempts <$> instances back !! 0%nat) = Some 0
      /\ timers (step back (SocketClosed 4)) = timers back ++ [(0%nat, 1000)]).
Proof. vm_compute. auto 10. Qed.


(** C6: the same receipt of a million and a half is shown with separators
    when its amount is a number and without when it is a string; a
    transaction without a category is shown as [Sent], with the amount
    [0] when it has none; and for one whose category is a number no toast
    is shown at all. *)
Lemma string_amount_is_shown_without_separators :
  toasts (handleMessage all_callbacks (Parsed quoted_receipt) wallet)
    = [Toast ToastSuccess (JStr "Received KES 1500000.00") (Some 4000)
         (Some MoneyBag)]
  /\ toasts (handleMessage all_callbacks (Parsed large_receipt) wallet)
     = [Toast ToastSuccess (JStr "Received KES 1,500,000") (Some 4000)
          (Some MoneyBag)]
  /\ toasts (handleMessage all_callbacks (Parsed bare_receipt) wallet)
     = [Toast ToastSuccess (JStr "Sent KES 0") (Some 4000)
          (Some MoneyWithWings)]
  /\ toasts (handleMessage all_callbacks (Parsed numbered_receipt) wallet)
     = [].
Proof. vm_compute. auto. Qed.

(** C8: after the second [initializeWebSocket] the first instance is no
    longer the singleton and none of the sockets in its fields is open;
    yet the [close] events of the sockets its [disconnect()] closed run its
    [scheduleReconnect], its timer fires, and it connects again: a socket
    of the replaced instance is open.  And when the first instance has
    reconnected before, the sockets its earlier [connect()] left behind are
    in no field any more: the second [initializeWebSocket] does not close
    them, and they stay open. *)
Theorem replaced_instance_reconnects :
  (websocketService connected = Some 0%nat
   /\ websocketService reinitialized = Some 1%nat
   /\ isConnected 0 (run [start] connected) = false
   /\ isConnected 0 reinitialized = true
   /\ ready reinitialized 3 = Some OPEN
   /\ (ws_owner <$> sockets reinitialized !! 3%nat) = Some 0%nat)
  /\ (websocketService replaced_after_reconnect = Some 1%nat
      /\ ready replaced_after_reconnect 0 = Some OPEN
      /\ (ws_owner <$> sockets replaced_after_reconnect !! 0%nat)
         = Some 0%nat).
Proof. vm_compute. auto 10. Qed.

End Examples.
